(** * graphql-processor: the directive interceptor chain builder

    A shallow embedding of [src/graphql-directives.mjs] and of
    [buildSchemaWithResolvers] from [src/index.mts].

    Reading guide.
    - JavaScript values are the small tagged type [Value]; objects live in a
      heap and are passed around as references [VRef l], so that "the same
      object" means "the same reference".
    - A resolver is a computation over a [World]: the heap, plus a ghost
      log of the calls made to user-supplied functions (directive handlers
      and base resolvers) and of the failures they end with.  The log is
      written only where the program calls such a function; user code
      cannot touch it.
    - A pending value (promise) is identified with the outcome it settles
      to: [Ok v] for a value, [Err e] for a throw or a rejection.  Awaiting
      is sequencing.  The order of calls inside one chain does not depend
      on this identification.
    - A directive handler is a resumption [Body]: it may read and write
      the heap, call its continuation [resolve()] any number of times and
      look at each outcome, return or throw.
    - A directive table is the finite map of what [table[name]] finds,
      which for an object literal is more than the entries written in it:
      [plainObject] adds the members every object inherits. *)

From Stdlib Require Import ZArith Ascii String.
From stdpp Require Import gmap strings list fin_maps pretty.

(** ** Values, heap, errors *)

Abbreviation loc := positive (only parsing).

Inductive Value : Type :=
| VUndefined
| VNull
| VBool (b : bool)
| VNum (n : Z)
| VStr (s : string)
| VRef (l : loc).

#[global] Instance Value_eq_dec : EqDecision Value.
Proof. solve_decision. Defined.

(** The locations a directive may be declared [on]
    ([DirectiveLocation] of the graphql package). *)
Inductive DirectiveLocation : Type :=
| QUERY | MUTATION | SUBSCRIPTION | FIELD | FRAGMENT_DEFINITION
| FRAGMENT_SPREAD | INLINE_FRAGMENT | VARIABLE_DEFINITION
| SCHEMA | SCALAR | OBJECT | FIELD_DEFINITION | ARGUMENT_DEFINITION
| INTERFACE | UNION | ENUM | ENUM_VALUE | INPUT_OBJECT
| INPUT_FIELD_DEFINITION.

#[global] Instance DirectiveLocation_eq_dec : EqDecision DirectiveLocation.
Proof. solve_decision. Defined.

(** What a call can throw.  The first three are the [new Error(...)] of
    [getDirectiveInfo], named as the specification names them. *)
Inductive Error : Type :=
| UndeclaredDirective (name : string)
| InvalidDirectiveLocation (name : string) (location : DirectiveLocation)
| MissingDirectiveHandler (name : string)
| TypeError (message : string)
| GraphQLError (message : string) (code : string)
| Thrown (v : Value).

#[global] Instance Error_eq_dec : EqDecision Error.
Proof. solve_decision. Defined.

Inductive Outcome (A : Type) : Type :=
| Ok (a : A)
| Err (e : Error).
Arguments Ok {A} a.
Arguments Err {A} e.

(** ** The world: heap and ghost call log *)

Inductive Callee : Type :=
| DirectiveHandler (location : DirectiveLocation) (name : string)
| BaseResolver.

#[global] Instance Callee_eq_dec : EqDecision Callee.
Proof. solve_decision. Defined.

Inductive Event : Type :=
| Enter (who : Callee) (context : Value)
| Fail (who : Callee) (e : Error).

#[global] Instance Event_eq_dec : EqDecision Event.
Proof. solve_decision. Defined.

Record World : Type := mkWorld {
  heap : gmap positive (gmap string Value);
  calls : list Event
}.

Definition record (ev : Event) (w : World) : World :=
  {| heap := heap w; calls := calls w ++ [ev] |}.

Definition settle {A} (who : Callee) (o : Outcome A) (w : World) : World :=
  match o with
  | Ok _ => w
  | Err e => record (Fail who e) w
  end.

Definition M (A : Type) : Type := World -> Outcome A * World.

Definition ret {A} (a : A) : M A := fun w => (Ok a, w).
Definition throw {A} (e : Error) : M A := fun w => (Err e, w).
Definition lift {A} (o : Outcome A) : M A := fun w => (o, w).

(** [Array.prototype.reduce] with a callback that may throw. *)
Fixpoint reduce {A B} (f : A -> B -> Outcome A) (l : list B) (init : A)
  : Outcome A :=
  match l with
  | [] => Ok init
  | x :: l' =>
      match f init x with
      | Ok a => reduce f l' a
      | Err e => Err e
      end
  end.

(** ** The schema and document model (what the graphql package hands over) *)

Inductive ArgumentNode : Type :=
| Literal (v : Value)
| VariableRef (name : string).

Record DirectiveNode : Type := mkDirectiveNode {
  dir_name : string;                              (* directive.name.value *)
  dir_arguments : list (string * ArgumentNode)
}.

Record FieldNode : Type := mkFieldNode {
  node_name : string;
  node_directives : list DirectiveNode
}.

Record GraphQLResolveInfo : Type := mkInfo {
  fieldName : string;
  fieldNodes : list FieldNode;
  variableValues : gmap string Value
}.

Record GraphQLDirective : Type := mkDirective {
  directive_name : string;
  locations : list DirectiveLocation;
  directive_args : list string
}.

(** [(source, args, context, info) => ...] as the engine calls it. *)
Definition Resolver : Type :=
  Value -> gmap string Value -> Value -> GraphQLResolveInfo -> M Value.

Record GraphQLField : Type := mkField {
  field_name : string;
  astNode_directives : list DirectiveNode;        (* field.astNode.directives *)
  resolve : option Resolver                       (* field.resolve *)
}.

Inductive TypeKind : Type :=
| ScalarType | ObjectType | InterfaceType | UnionType | EnumType
| InputObjectType.

#[global] Instance TypeKind_eq_dec : EqDecision TypeKind.
Proof. solve_decision. Defined.

Record GraphQLType : Type := mkType {
  type_name : string;
  type_kind : TypeKind;
  type_fields : list (string * GraphQLField)      (* in declaration order *)
}.

Record GraphQLSchema : Type := mkSchema {
  typeMap : list (string * GraphQLType);          (* in declaration order *)
  directives : list GraphQLDirective
}.

(** ** User-supplied functions *)

(** A base resolver ([HandlerFunction] of index.mts): reads and writes the
    heap, returns or throws. *)
Definition HandlerFunction : Type :=
  Value -> gmap string Value -> Value -> GraphQLResolveInfo ->
  gmap positive (gmap string Value) ->
  Outcome Value * gmap positive (gmap string Value).

(** The behaviour of one call of a directive handler: return [v]; throw
    [e]; call [resolve()] and go on as [k o] with the outcome [o] of that
    call; or, in heap [h], write [upd h] and go on as [next h]. *)
Inductive Body : Type :=
| Return (v : Value)
| Throw (e : Error)
| Resolve (k : Outcome Value -> Body)
| Update (upd : gmap positive (gmap string Value) ->
                gmap positive (gmap string Value))
         (next : gmap positive (gmap string Value) -> Body).

(** [DirectiveFunction] of index.mts without its first parameter, the
    continuation, which the [Resolve] nodes of the body stand for:
    [(obj, args, context, info, functionArgs)]. *)
Definition DirectiveFunction : Type :=
  Value -> gmap string Value -> Value -> GraphQLResolveInfo ->
  gmap string Value -> Body.

Fixpoint runBody (b : Body) (resolve_ : M Value) : M Value :=
  match b with
  | Return v => ret v
  | Throw e => throw e
  | Resolve k => fun w => let (o, w') := resolve_ w in runBody (k o) resolve_ w'
  | Update upd next =>
      fun w => runBody (next (heap w)) resolve_
                 {| heap := upd (heap w); calls := calls w |}
  end.

(** Calling a base resolver: the call is logged, and so is its failure. *)
Definition callResolver (f : HandlerFunction) : Resolver :=
  fun source args context info w =>
    let w1 := record (Enter BaseResolver context) w in
    let (o, h') := f source args context info (heap w1) in
    (o, settle BaseResolver o {| heap := h'; calls := calls w1 |}).

(** Calling a directive handler found for [name] at [location]:
    [resolver(resolve, source, directiveArgs, context, info, args)]. *)
Definition callDirective (location : DirectiveLocation) (name : string)
    (resolver : DirectiveFunction) (resolve_ : M Value)
    (source : Value) (directiveArgs : gmap string Value) (context : Value)
    (info : GraphQLResolveInfo) (args : gmap string Value) : M Value :=
  fun w =>
    let w1 := record (Enter (DirectiveHandler location name) context) w in
    let (o, w2) :=
      runBody (resolver source directiveArgs context info args) resolve_ w1 in
    (o, settle (DirectiveHandler location name) o w2).

(** The collaborators taken from the graphql package. *)
Record Engine : Type := mkEngine {
  buildSchema : string -> Outcome GraphQLSchema;
  getDirectiveValues :
    GraphQLDirective -> DirectiveNode -> option (gmap string Value) ->
    Outcome (gmap string Value);
  defaultFieldResolver : HandlerFunction
}.

(** ** The program *)

Record DirectiveInfo : Type := mkDirectiveInfo {
  info_args : gmap string Value;                  (* directiveInfo.args *)
  info_resolver : DirectiveFunction               (* directiveInfo.resolver *)
}.

(** What [table[name]] finds in an object with the entries [own] and
    the prototype [prototype]: the entry of its own, and where there is
    none the inherited member.  An object literal has [Object.prototype]
    for its prototype, with the members [constructor], [hasOwnProperty],
    [isPrototypeOf], [propertyIsEnumerable], [toLocaleString],
    [toString], [valueOf], [__proto__], [__defineGetter__],
    [__defineSetter__], [__lookupGetter__] and [__lookupSetter__]. *)
Definition plainObject (prototype own : gmap string DirectiveFunction)
  : gmap string DirectiveFunction :=
  own ∪ prototype.

Definition BUILT_IN_DIRECTIVES : list string := ["deprecated"; "skip"; "include"].

(** [directives.filter(d => !BUILT_IN_DIRECTIVES.includes(d.name.value))] *)
Definition filterCustomDirectives (ds : list DirectiveNode) : list DirectiveNode :=
  filter (fun d => dir_name d ∉ BUILT_IN_DIRECTIVES) ds.

(** [schema.getDirective(name)]: the first declaration of that name. *)
Definition getDirective (schema : GraphQLSchema) (name : string)
  : option GraphQLDirective :=
  List.find (fun d => bool_decide (directive_name d = name)) (directives schema).

(** [schema.getType(name)] *)
Definition getType (schema : GraphQLSchema) (name : string) : option GraphQLType :=
  snd <$> List.find (fun p => bool_decide (fst p = name)) (typeMap schema).

(** [type.getFields()]: scalars, unions and enums have no such method. *)
Definition getFields (type : GraphQLType)
  : option (list (string * GraphQLField)) :=
  match type_kind type with
  | ObjectType | InterfaceType | InputObjectType => Some (type_fields type)
  | ScalarType | UnionType | EnumType => None
  end.

Definition setResolve (r : Resolver) (field : GraphQLField) : GraphQLField :=
  {| field_name := field_name field;
     astNode_directives := astNode_directives field;
     resolve := Some r |}.

Section Core.
Variable engine : Engine.

(** [field.resolve || defaultFieldResolver]; a resolver found in the
    field is whatever was assigned there. *)
Definition getFieldResolver (field : GraphQLField) : Resolver :=
  match resolve field with
  | Some resolver => resolver
  | None => callResolver (defaultFieldResolver engine)
  end.

(** The [async] wrapper changes a throw into a rejection; both are
    [Err]. *)
Definition createAsyncResolver (field : GraphQLField) : Resolver :=
  let originalResolver := getFieldResolver field in
  fun source args context info => originalResolver source args context info.

(** [resolverMap !! name] is the lookup [resolverMap[name]]: it finds
    whatever the object has under the name, an entry of its own or a
    member it inherits (see [plainObject]).  The test [!resolver] fails
    for everything found. *)
Definition getDirectiveInfo (directive : DirectiveNode)
    (resolverMap : gmap string DirectiveFunction) (schema : GraphQLSchema)
    (location : DirectiveLocation) (variables : option (gmap string Value))
  : Outcome DirectiveInfo :=
  let name := dir_name directive in
  match getDirective schema name with
  | None => Err (UndeclaredDirective name)
  | Some Directive =>
      if negb (bool_decide (location ∈ locations Directive))
      then Err (InvalidDirectiveLocation name location)
      else
        match resolverMap !! name with
        | None => Err (MissingDirectiveHandler name)
        | Some resolver =>
            match getDirectiveValues engine Directive directive variables with
            | Err e => Err e
            | Ok args => Ok {| info_args := args; info_resolver := resolver |}
            end
        end
  end.

(** The callback of the [reduce] in [createFieldExecutionResolver]. *)
Definition executionStep (resolverMap : gmap string DirectiveFunction)
    (schema : GraphQLSchema) (recursiveResolver : Resolver)
    (directive : DirectiveNode) : Outcome Resolver :=
  match getDirectiveInfo directive resolverMap schema FIELD_DEFINITION None with
  | Err e => Err e
  | Ok directiveInfo =>
      Ok (fun source args context info =>
            callDirective FIELD_DEFINITION (dir_name directive)
              (info_resolver directiveInfo)
              (recursiveResolver source args context info)
              source (info_args directiveInfo) context info args)
  end.

Definition createFieldExecutionResolver (field : GraphQLField)
    (resolverMap : gmap string DirectiveFunction) (schema : GraphQLSchema)
  : Outcome Resolver :=
  let directives := filterCustomDirectives (astNode_directives field) in
  if bool_decide (length directives = 0) then Ok (getFieldResolver field)
  else reduce (executionStep resolverMap schema) directives
         (createAsyncResolver field).

(** The callback of the [reduce] in [createFieldResolver]; the closure it
    returns takes no parameters and uses those of the enclosing call. *)
Definition usageStep (resolverMap : gmap string DirectiveFunction)
    (schema : GraphQLSchema) (source : Value) (args : gmap string Value)
    (context : Value) (info : GraphQLResolveInfo)
    (recursiveResolver : Resolver) (directive : DirectiveNode)
  : Outcome Resolver :=
  match getDirectiveInfo directive resolverMap schema FIELD
          (Some (variableValues info)) with
  | Err e => Err e
  | Ok directiveInfo =>
      Ok (fun _ _ _ _ =>
            callDirective FIELD (dir_name directive)
              (info_resolver directiveInfo)
              (recursiveResolver source args context info)
              source (info_args directiveInfo) context info args)
  end.

Definition createFieldResolver (field : GraphQLField)
    (resolverMap : gmap string DirectiveFunction) (schema : GraphQLSchema)
  : Resolver :=
  let originalResolver := getFieldResolver field in
  let asyncResolver := createAsyncResolver field in
  fun source args context info =>
    match fieldNodes info with
    | [] => throw (TypeError "Cannot read properties of undefined (reading 'directives')")
    | node0 :: _ =>
        let directives := filterCustomDirectives (node_directives node0) in
        if bool_decide (length directives = 0)
        then originalResolver source args context info
        else
          match reduce (usageStep resolverMap schema source args context info)
                  directives asyncResolver with
          | Err e => throw e
          | Ok fieldResolver => fieldResolver source args context info
          end
    end.

(** The callback that [addDirectiveResolveFunctionsToSchema] gives to
    [forEachField]: two assignments to [field.resolve]. *)
Definition installResolvers (resolverMap : gmap string DirectiveFunction)
    (schema : GraphQLSchema) (field : GraphQLField) : Outcome GraphQLField :=
  match createFieldExecutionResolver field resolverMap schema with
  | Err e => Err e
  | Ok r =>
      let field1 := setResolve r field in
      Ok (setResolve (createFieldResolver field1 resolverMap schema) field1)
  end.

(** The inner loop of [forEachField]: every field of one type. *)
Fixpoint forEachFieldOf (fn : GraphQLField -> Outcome GraphQLField)
    (fields : list (string * GraphQLField))
  : Outcome (list (string * GraphQLField)) :=
  match fields with
  | [] => Ok []
  | (fieldName, field) :: rest =>
      match fn field with
      | Err e => Err e
      | Ok field' =>
          match forEachFieldOf fn rest with
          | Err e => Err e
          | Ok rest' => Ok ((fieldName, field') :: rest')
          end
      end
  end.

(** The outer loop of [forEachField]: object types whose name does not
    start with two underscores. *)
Fixpoint forEachType (fn : GraphQLField -> Outcome GraphQLField)
    (types : list (string * GraphQLType))
  : Outcome (list (string * GraphQLType)) :=
  match types with
  | [] => Ok []
  | (typeName, type) :: rest =>
      let visited :=
        if negb (String.prefix "__" (type_name type))
           && bool_decide (type_kind type = ObjectType)
        then
          match forEachFieldOf fn (type_fields type) with
          | Err e => Err e
          | Ok fields' =>
              Ok {| type_name := type_name type;
                    type_kind := type_kind type;
                    type_fields := fields' |}
          end
        else Ok type in
      match visited with
      | Err e => Err e
      | Ok type' =>
          match forEachType fn rest with
          | Err e => Err e
          | Ok rest' => Ok ((typeName, type') :: rest')
          end
      end
  end.

Definition forEachField (schema : GraphQLSchema)
    (fn : GraphQLField -> Outcome GraphQLField) : Outcome GraphQLSchema :=
  match forEachType fn (typeMap schema) with
  | Err e => Err e
  | Ok types' => Ok {| typeMap := types'; directives := directives schema |}
  end.

(** The table is typed as an object ([GraphQLDirectiveHandler]), which
    is what the two guards at the head of the function ask for.  The
    handlers read the schema for its directive declarations only, which
    the wiring leaves as they are. *)
Definition addDirectiveResolveFunctionsToSchema (schema : GraphQLSchema)
    (resolverMap : gmap string DirectiveFunction) : Outcome GraphQLSchema :=
  forEachField schema (installResolvers resolverMap schema).

(** [fields[fieldName].resolve = fn] inside the type named [typeName]. *)
Definition assignResolve (fieldName : string) (fn : HandlerFunction)
    (fields : list (string * GraphQLField)) : list (string * GraphQLField) :=
  map (fun p => if bool_decide (fst p = fieldName)
                then (fst p, setResolve (callResolver fn) (snd p))
                else p) fields.

Definition assignInType (typeName fieldName : string) (fn : HandlerFunction)
    (schema : GraphQLSchema) : GraphQLSchema :=
  {| typeMap :=
       map (fun p => if bool_decide (fst p = typeName)
                     then (fst p,
                           {| type_name := type_name (snd p);
                              type_kind := type_kind (snd p);
                              type_fields :=
                                assignResolve fieldName fn (type_fields (snd p)) |})
                     else p) (typeMap schema);
     directives := directives schema |}.

(** The inner loop of [buildSchemaWithResolvers]. *)
Fixpoint bindFields (typeName : string)
    (entries : list (string * HandlerFunction)) (schema : GraphQLSchema)
    (fieldsNames : list string) : GraphQLSchema :=
  match entries with
  | [] => schema
  | (fieldName, fn) :: rest =>
      let schema' :=
        if bool_decide (fieldName ∈ fieldsNames)
        then assignInType typeName fieldName fn schema
        else schema in
      bindFields typeName rest schema' fieldsNames
  end.

(** The outer loop of [buildSchemaWithResolvers]. *)
Fixpoint bindTypes (resolverMap : list (string * list (string * HandlerFunction)))
    (schema : GraphQLSchema) : Outcome GraphQLSchema :=
  match resolverMap with
  | [] => Ok schema
  | (typeName, entries) :: rest =>
      match getType schema typeName with
      | None =>
          Err (TypeError "Cannot read properties of undefined (reading 'getFields')")
      | Some type =>
          match getFields type with
          | None => Err (TypeError "type.getFields is not a function")
          | Some fields =>
              bindTypes rest
                (bindFields typeName entries schema (map fst fields))
          end
      end
  end.

Definition buildSchemaWithResolvers
    (resolverMap : list (string * list (string * HandlerFunction)))
    (schemaString : string)
    (directives_ : option (gmap string DirectiveFunction))
  : Outcome GraphQLSchema :=
  match buildSchema engine schemaString with
  | Err e => Err e
  | Ok schema =>
      match bindTypes resolverMap schema with
      | Err e => Err e
      | Ok schema' =>
          match directives_ with
          | Some table => addDirectiveResolveFunctionsToSchema schema' table
          | None => Ok schema'
          end
      end
  end.

End Core.

(** ** What is observed of a run *)

(** The callees entered, in the order of the log. *)
Definition entered (evs : list Event) : list Callee :=
  omap (fun ev => match ev with Enter who _ => Some who | Fail _ _ => None end) evs.

(** The context each logged call received. *)
Definition contexts (evs : list Event) : list Value :=
  omap (fun ev => match ev with Enter _ c => Some c | Fail _ _ => None end) evs.


(** [m] started in [w] ends with outcome [o] in heap [h], having added
    [evs] to the log. *)
Definition runs {A} (m : M A) (w : World) (o : Outcome A)
    (h : gmap positive (gmap string Value)) (evs : list Event) : Prop :=
  m w = (o, {| heap := h; calls := calls w ++ evs |}).

(** ** Shapes of handler bodies *)

(** Hand an outcome on: return the value, rethrow the error. *)
Definition finish (o : Outcome Value) : Body :=
  match o with
  | Ok v => Return v
  | Err e => Throw e
  end.

(** A handler that writes to the heap and then hands on whatever its
    continuation yields. *)
Definition writeThenResolve
    (write : gmap positive (gmap string Value) -> gmap positive (gmap string Value))
  : Body :=
  Update write (fun _ => Resolve finish).

(** The body makes no call of its continuation. *)
Inductive finishes : Body -> Prop :=
| finishes_Return v : finishes (Return v)
| finishes_Throw e : finishes (Throw e)
| finishes_Update upd next :
    (∀ h, finishes (next h)) -> finishes (Update upd next).

(** The body calls its continuation, and does so once. *)
Inductive resolvesOnce : Body -> Prop :=
| resolvesOnce_Resolve k :
    (∀ o, finishes (k o)) -> resolvesOnce (Resolve k)
| resolvesOnce_Update upd next :
    (∀ h, resolvesOnce (next h)) -> resolvesOnce (Update upd next).



(** What a body does from heap [h] when it ends without a call of its
    continuation. *)
Fixpoint settles (b : Body) (h : gmap positive (gmap string Value))
  : option (Outcome Value * gmap positive (gmap string Value)) :=
  match b with
  | Return v => Some (Ok v, h)
  | Throw e => Some (Err e, h)
  | Resolve _ => None
  | Update upd next => settles (next h) (upd h)
  end.

(** Every handler of the table has the given shape, whatever it is
    called with. *)
Definition allHandlers (P : Body -> Prop)
    (resolverMap : gmap string DirectiveFunction) : Prop :=
  ∀ name resolver source directiveArgs context info args,
    resolverMap !! name = Some resolver ->
    P (resolver source directiveArgs context info args).

(** The field holds a base resolver or none: no chain was installed yet. *)
Definition unwired (field : GraphQLField) : Prop :=
  resolve field = None ∨ ∃ f, resolve field = Some (callResolver f).

(** ** The template tag of index.mts *)

(** What a template literal makes of an interpolated value.  A reference
    stands for a plain object.  A number prints in decimal digits as long
    as it is an integer that a number holds exactly, at most [2^53] in
    absolute value ([printsInDecimal]); beyond that the runtime rounds
    the digits and, from [10^21] on, prints an exponent, which is not
    modelled. *)
Definition templateString (v : Value) : string :=
  match v with
  | VUndefined => "undefined"
  | VNull => "null"
  | VBool true => "true"
  | VBool false => "false"
  | VNum n => pretty n
  | VStr s => s
  | VRef _ => "[object Object]"
  end.

(** The values whose conversion [templateString] gives digit for digit. *)
Definition printsInDecimal (v : Value) : Prop :=
  match v with
  | VNum n => (Z.abs n <= 2 ^ 53)%Z
  | _ => True
  end.

(** The [reduce] of [gql] from position [index] on:
    [`${accumulator}${chunk}${index in variables ? variables[index] : ''}`]. *)
Fixpoint gqlReduce (chunks : list string) (variables : list Value)
    (index : nat) (accumulator : string) : string :=
  match chunks with
  | [] => accumulator
  | chunk :: rest =>
      gqlReduce rest variables (S index)
        (accumulator +:+ chunk +:+
         match variables !! index with
         | Some v => templateString v
         | None => ""
         end)
  end.

Definition gql (chunks : list string) (variables : list Value) : string :=
  gqlReduce chunks variables 0 "".

(** Each chunk followed by the variable of its position, if there is
    one. *)
Fixpoint interleave (chunks : list string) (variables : list Value) : string :=
  match chunks with
  | [] => ""
  | chunk :: rest =>
      match variables with
      | [] => chunk +:+ interleave rest []
      | v :: variables' => chunk +:+ templateString v +:+ interleave rest variables'
      end
  end.

(** ** The example of the README *)

Module Readme.

(** [String.prototype.toUpperCase] for strings of ASCII characters, which
    is what the example holds: the letters [a] to [z] change, nothing
    else does. *)
Definition upperAscii (c : ascii) : ascii :=
  let n := nat_of_ascii c in
  if (97 <=? n)%nat && (n <=? 122)%nat then ascii_of_nat (n - 32) else c.

Fixpoint toUpperCase (s : string) : string :=
  match s with
  | EmptyString => EmptyString
  | String c s' => String (upperAscii c) (toUpperCase s')
  end.

(** [value.toString()]; there is none on [undefined] and [null].  Numbers
    as for [templateString]. *)
Definition toString (v : Value) : Outcome string :=
  match v with
  | VUndefined => Err (TypeError "Cannot read properties of undefined (reading 'toString')")
  | VNull => Err (TypeError "Cannot read properties of null (reading 'toString')")
  | VBool true => Ok "true"
  | VBool false => Ok "false"
  | VNum n => Ok (pretty n)
  | VStr s => Ok s
  | VRef _ => Ok "[object Object]"
  end.

(** [value[key]], for the keys the example reads: property names of its
    objects, which no boolean, number or string has. *)
Definition getProperty (v : Value) (key : string)
    (h : gmap positive (gmap string Value)) : Outcome Value :=
  match v with
  | VUndefined =>
      Err (TypeError ("Cannot read properties of undefined (reading '"
                      +:+ key +:+ "')"))
  | VNull =>
      Err (TypeError ("Cannot read properties of null (reading '"
                      +:+ key +:+ "')"))
  | VRef l =>
      match h !! l with
      | Some object => Ok (default VUndefined (object !! key))
      | None => Ok VUndefined
      end
  | VBool _ | VNum _ | VStr _ => Ok VUndefined
  end.

(** [role]: the guard, then [return resolve()]. *)
Definition role : DirectiveFunction :=
  fun obj args context info functionArgs =>
    Update (fun h => h) (fun h =>
      match getProperty context "role" h with
      | Err e => Throw e
      | Ok contextRole =>
          if bool_decide (default VUndefined (args !! "role") ≠ contextRole)
          then Throw (GraphQLError "Unauthorized" "E_ROLE")
          else Resolve finish
      end).

(** [whatever]: [return resolve()]. *)
Definition whatever : DirectiveFunction :=
  fun obj args context info functionArgs => Resolve finish.

(** [upper]: [(await resolve()).toString().toUpperCase()]. *)
Definition upper : DirectiveFunction :=
  fun obj args context info functionArgs =>
    Resolve (fun o =>
      match o with
      | Err e => Throw e
      | Ok result =>
          match toString result with
          | Err e => Throw e
          | Ok s => Return (VStr (toUpperCase s))
          end
      end).

Definition personLoc : positive := 1%positive.
Definition contextLoc : positive := 2%positive.

(** [person] and [contextValue] *)
Definition initialHeap : gmap positive (gmap string Value) :=
  <[personLoc := <["name" := VStr "John"]>
                   (<["surname" := VStr "Doe"]>
                      (<["secret" := VStr "123456789abcd"]> ∅))]>
    (<[contextLoc := <["role" := VStr "ADMIN"]> ∅]> ∅).

Definition initialWorld : World := {| heap := initialHeap; calls := [] |}.

(** [fullname(obj) { return `${obj.surname} ${obj.name}` }] *)
Definition fullname : HandlerFunction :=
  fun obj args context info h =>
    match getProperty obj "surname" h with
    | Err e => (Err e, h)
    | Ok surname =>
        match getProperty obj "name" h with
        | Err e => (Err e, h)
        | Ok name =>
            (Ok (VStr (templateString surname +:+ " " +:+ templateString name)), h)
        end
    end.

(** [get() { return person }] *)
Definition get : HandlerFunction :=
  fun obj args context info h => (Ok (VRef personLoc), h).

Definition handlers : list (string * list (string * HandlerFunction)) :=
  [("Person", [("fullname", fullname)]); ("Query", [("get", get)])].

Definition plainField (name : string) : string * GraphQLField :=
  (name, {| field_name := name; astNode_directives := []; resolve := None |}).

Definition secretField : GraphQLField :=
  {| field_name := "secret";
     astNode_directives :=
       [ {| dir_name := "whatever"; dir_arguments := [] |};
         {| dir_name := "role";
            dir_arguments := [("role", Literal (VStr "ADMIN"))] |} ];
     resolve := None |}.

(** The schema text of the README as the parser delivers it; of the
    types the parser adds, two are kept. *)
Definition schema : GraphQLSchema :=
  {| typeMap :=
       [ ("Person",
          {| type_name := "Person"; type_kind := ObjectType;
             type_fields :=
               [ plainField "name"; plainField "surname";
                 plainField "fullname"; ("secret", secretField) ] |});
         ("String",
          {| type_name := "String"; type_kind := ScalarType;
             type_fields := [] |});
         ("Query",
          {| type_name := "Query"; type_kind := ObjectType;
             type_fields := [ plainField "get" ] |});
         ("__Schema",
          {| type_name := "__Schema"; type_kind := ObjectType;
             type_fields := [ plainField "description" ] |}) ];
     directives :=
       [ {| directive_name := "whatever"; locations := [FIELD_DEFINITION];
            directive_args := [] |};
         {| directive_name := "role"; locations := [FIELD_DEFINITION];
            directive_args := ["role"] |};
         {| directive_name := "upper"; locations := [FIELD];
            directive_args := [] |} ] |}.

(** The table of the README, at the names of its entries. *)
Definition directives : gmap string DirectiveFunction :=
  <["role" := role]> (<["whatever" := whatever]> (<["upper" := upper]> ∅)).

(** The value written for one argument, if any. *)
Definition argumentValue (directive : DirectiveNode)
    (variables : option (gmap string Value)) (name : string) : option Value :=
  match List.find (fun p => bool_decide (fst p = name)) (dir_arguments directive) with
  | Some (_, Literal v) => Some v
  | Some (_, VariableRef x) => default ∅ variables !! x
  | None => None
  end.

(** The engine of the example: the parser applied to the text of the
    README; argument values read off the node as they are written, which
    is what the engine's [getDirectiveValues] yields when every declared
    argument is written with a value of its type, as in the README
    (defaults, coercion and the rejection of a missing required argument
    are not modelled); and the default resolver reading the property
    named by the field. *)
Definition engine : Engine :=
  {| buildSchema := fun _ => Ok schema;
     getDirectiveValues := fun Directive directive variables =>
       Ok (list_to_map
             (omap (fun name =>
                      (fun v => (name, v)) <$> argumentValue directive variables name)
                   (directive_args Directive)));
     defaultFieldResolver := fun source args context info h =>
       match getProperty source (fieldName info) h with
       | Ok v => (Ok v, h)
       | Err _ => (Ok VUndefined, h)
       end |}.

(** [secret @upper] in the query of the README. *)
Definition secretInfo : GraphQLResolveInfo :=
  {| fieldName := "secret";
     fieldNodes :=
       [ {| node_name := "secret";
            node_directives := [ {| dir_name := "upper"; dir_arguments := [] |} ] |} ];
     variableValues := ∅ |}.

(** [Person.secret] after wiring. *)
Definition wiredSecretField : GraphQLField :=
  match installResolvers engine directives schema secretField with
  | Err _ => secretField
  | Ok field => field
  end.

(** A table in which both declared directives of [secret] just pass on,
    and the resolver it gives [secret] at the declaration site. *)
Definition passTable : gmap string DirectiveFunction :=
  <["role" := whatever]> (<["whatever" := whatever]> ∅).

Definition passResolver : Resolver :=
  match createFieldExecutionResolver engine secretField passTable schema with
  | Err _ => getFieldResolver engine secretField
  | Ok r => r
  end.

(** The schema as [graphql()] builds it for the README's call. *)
Definition wiredSchema : Outcome GraphQLSchema :=
  buildSchemaWithResolvers engine handlers "" (Some directives).

(** A handler that answers ["X"] and never calls its continuation, put
    in the place of [role]. *)
Definition answerX : DirectiveFunction :=
  fun obj args context info functionArgs => Return (VStr "X").

Definition shortTable : gmap string DirectiveFunction :=
  <["role" := answerX]> (<["whatever" := whatever]> ∅).

Definition shortResolver : Resolver :=
  match createFieldExecutionResolver engine secretField shortTable schema with
  | Err _ => getFieldResolver engine secretField
  | Ok r => r
  end.

(** A caller whose role is not the one [secret] asks for. *)
Definition userWorld : World :=
  {| heap := <[contextLoc := <["role" := VStr "USER"]> ∅]> initialHeap;
     calls := [] |}.

(** [secret @upper] merged with a second occurrence [secret @lower]. *)
Definition mergedInfo : GraphQLResolveInfo :=
  {| fieldName := "secret";
     fieldNodes :=
       [ {| node_name := "secret";
            node_directives := [ {| dir_name := "upper"; dir_arguments := [] |} ] |};
         {| node_name := "secret";
            node_directives := [ {| dir_name := "lower"; dir_arguments := [] |} ] |} ];
     variableValues := ∅ |}.

(** A handler that appends its name to [context.trail] and continues;
    a table that records every directive of the README this way. *)
Definition appendTrail (name : string) (context : Value)
    (h : gmap positive (gmap string Value)) : gmap positive (gmap string Value) :=
  match context with
  | VRef l =>
      match h !! l with
      | Some object =>
          let trail := match object !! "trail" with
                       | Some (VStr s) => s
                       | _ => ""
                       end in
          <[l := <["trail" := VStr (trail +:+ name +:+ ";")]> object]> h
      | None => h
      end
  | _ => h
  end.

Definition stamp (name : string) : DirectiveFunction :=
  fun obj args context info functionArgs =>
    writeThenResolve (appendTrail name context).

Definition stampTable : gmap string DirectiveFunction :=
  <["role" := stamp "role"]>
    (<["whatever" := stamp "whatever"]> (<["upper" := stamp "upper"]> ∅)).

Definition stampedSecretField : GraphQLField :=
  match installResolvers engine stampTable schema secretField with
  | Err _ => secretField
  | Ok field => field
  end.

Definition passWiredSecretField : GraphQLField :=
  match installResolvers engine passTable schema secretField with
  | Err _ => secretField
  | Ok field => field
  end.

(** [secret @include(if: true)]: a built-in directive at the usage site. *)
Definition includeInfo : GraphQLResolveInfo :=
  {| fieldName := "secret";
     fieldNodes :=
       [ {| node_name := "secret";
            node_directives :=
              [ {| dir_name := "include";
                   dir_arguments := [("if", Literal (VBool true))] |} ] |} ];
     variableValues := ∅ |}.

(** The resolver the README's table gives [secret] at the declaration
    site. *)
Definition declaredSecretResolver : Resolver :=
  match createFieldExecutionResolver engine secretField directives schema with
  | Err _ => getFieldResolver engine secretField
  | Ok r => r
  end.








End Readme.

(** ** A table written as an object literal *)

Module Literal.

(** [Object.prototype.toString] called as [directiveInfo.resolver(...)]:
    [this] is the object [directiveInfo], the parameters are ignored. *)
Definition toString : DirectiveFunction :=
  fun obj args context info functionArgs => Return (VStr "[object Object]").

(** [Object.prototype] as far as the example looks into it: its member
    [toString]. *)
Definition objectPrototype : gmap string DirectiveFunction :=
  {[ "toString" := toString ]}.

(** The table [{}]. *)
Definition emptyTable : gmap string DirectiveFunction :=
  plainObject objectPrototype ∅.

(** The schema of the README with one more declaration,
    [directive @toString on FIELD]. *)
Definition schema : GraphQLSchema :=
  {| typeMap := typeMap Readme.schema;
     directives :=
       directives Readme.schema
       ++ [ {| directive_name := "toString"; locations := [FIELD];
               directive_args := [] |} ] |}.

(** [name @toString] in a query. *)
Definition nameInfo : GraphQLResolveInfo :=
  {| fieldName := "name";
     fieldNodes :=
       [ {| node_name := "name";
            node_directives := [ {| dir_name := "toString"; dir_arguments := [] |} ] |} ];
     variableValues := ∅ |}.



End Literal.

(** ** Two fields of one query *)

Module Siblings.

(** [directive @upper on FIELD
     type Person { nickname: String  name: String }
     type Query { get: Person }]: both fields of [Person] may be null. *)
Definition schema : GraphQLSchema :=
  {| typeMap :=
       [ ("Person",
          {| type_name := "Person"; type_kind := ObjectType;
             type_fields :=
               [ Readme.plainField "nickname"; Readme.plainField "name" ] |});
         ("Query",
          {| type_name := "Query"; type_kind := ObjectType;
             type_fields := [ Readme.plainField "get" ] |}) ];
     directives :=
       [ {| directive_name := "upper"; locations := [FIELD];
            directive_args := [] |} ] |}.

(** A table that has nothing under [upper]: [{}]. *)
Definition table : gmap string DirectiveFunction := Literal.emptyTable.



Definition nameInfo : GraphQLResolveInfo :=
  {| fieldName := "name";
     fieldNodes := [ {| node_name := "name"; node_directives := [] |} ];
     variableValues := ∅ |}.

End Siblings.

(** ** Chains, seen from outside *)

Section Chains.
Variable engine : Engine.

(** Discovery over a directive list, in source order; the first failure
    is the failure of the whole. *)
Fixpoint discover (resolverMap : gmap string DirectiveFunction)
    (schema : GraphQLSchema) (location : DirectiveLocation)
    (variables : option (gmap string Value)) (ds : list DirectiveNode)
  : Outcome (list (string * DirectiveInfo)) :=
  match ds with
  | [] => Ok []
  | d :: ds' =>
      match getDirectiveInfo engine d resolverMap schema location variables with
      | Err e => Err e
      | Ok directiveInfo =>
          match discover resolverMap schema location variables ds' with
          | Err e => Err e
          | Ok rest => Ok ((dir_name d, directiveInfo) :: rest)
          end
      end
  end.

(** The handlers of a chain, outermost first, around a computation. *)
Fixpoint nest (location : DirectiveLocation)
    (outerFirst : list (string * DirectiveInfo)) (base : M Value)
    (source : Value) (context : Value) (info : GraphQLResolveInfo)
    (args : gmap string Value) : M Value :=
  match outerFirst with
  | [] => base
  | (name, directiveInfo) :: inner =>
      callDirective location name (info_resolver directiveInfo)
        (nest location inner base source context info args)
        source (info_args directiveInfo) context info args
  end.

End Chains.

(** The names of a directive list as callees at [location]. *)
Definition handlersOf (location : DirectiveLocation) (ds : list DirectiveNode)
  : list Callee :=
  map (fun d => DirectiveHandler location (dir_name d)) ds.












(** On heaps, the computation [m] is the function [hf]: started in a
    heap [h] it ends with the outcome and the heap [hf h]. *)
Definition actsOnHeap (m : M Value)
    (hf : gmap positive (gmap string Value) ->
          Outcome Value * gmap positive (gmap string Value)) : Prop :=
  ∀ w, ∃ evs, runs m w (fst (hf (heap w))) (snd (hf (heap w))) evs.

(** The writes of a list of discovered handlers, outermost first, when
    the handler found under [name] writes [write name ...]. *)
Definition writesOf
    (write : string -> Value -> gmap string Value -> Value ->
             GraphQLResolveInfo -> gmap string Value ->
             gmap positive (gmap string Value) -> gmap positive (gmap string Value))
    (source context : Value) (info : GraphQLResolveInfo) (args : gmap string Value)
    (outerFirst : list (string * DirectiveInfo))
    (h : gmap positive (gmap string Value)) : gmap positive (gmap string Value) :=
  fold_left (fun h p => write (fst p) source (info_args (snd p)) context info args h)
    outerFirst h.

(** Two infos that differ, if at all, in the field nodes after the first. *)
Definition sameFirstNode (info info' : GraphQLResolveInfo) : Prop :=
  fieldName info = fieldName info' ∧
  variableValues info = variableValues info' ∧
  head (fieldNodes info) = head (fieldNodes info').

(** User code that does not look at the field nodes after the first. *)
Definition handlerIgnoresLaterNodes (resolver : DirectiveFunction) : Prop :=
  ∀ source directiveArgs context info info' args,
    sameFirstNode info info' ->
    resolver source directiveArgs context info args
    = resolver source directiveArgs context info' args.

Definition resolverIgnoresLaterNodes (r : Resolver) : Prop :=
  ∀ source args context info info' w,
    sameFirstNode info info' ->
    r source args context info w = r source args context info' w.


(** A call made on the declaration side of a field: a handler found at
    [FIELD_DEFINITION], or the base resolver. *)
Definition declarationSide (who : Callee) : Prop :=
  who = BaseResolver ∨ ∃ name, who = DirectiveHandler FIELD_DEFINITION name.

(** In the log [evs], every call on the declaration side comes after a
    call of the usage-site handler of each of the names [outer]. *)
Definition usageFirst (outer : list string) (evs : list Event) : Prop :=
  ∀ pre who c post,
    evs = pre ++ Enter who c :: post ->
    declarationSide who ->
    ∀ name, name ∈ outer -> DirectiveHandler FIELD name ∈ entered pre.

(** The field [fieldName] of the type [typeName]. *)
Definition fieldOf (schema : GraphQLSchema) (typeName fieldName : string)
  : option GraphQLField :=
  match getType schema typeName with
  | None => None
  | Some type =>
      snd <$> List.find (fun p => bool_decide (fst p = fieldName)) (type_fields type)
  end.

(** The failure a call logs when it ends with [o]. *)
Definition failTail {A} (who : Callee) (o : Outcome A) : list Event :=
  match o with
  | Ok _ => []
  | Err e => [Fail who e]
  end.

(** The field with another list of declaration-site directives. *)
Definition withDirectives (ds : list DirectiveNode) (field : GraphQLField)
  : GraphQLField :=
  {| field_name := field_name field;
     astNode_directives := ds;
     resolve := resolve field |}.

Definition isBuiltIn (d : DirectiveNode) : Prop :=
  dir_name d ∈ BUILT_IN_DIRECTIVES.

(** ** Schemas, seen from outside *)

(** The condition under which [forEachField] visits the fields of a
    type. *)
Definition visited (type : GraphQLType) : bool :=
  negb (String.prefix "__" (type_name type))
  && bool_decide (type_kind type = ObjectType).

(** The schema without its resolvers: all that wiring must not touch. *)
Definition eraseField (field : GraphQLField) : string * list DirectiveNode :=
  (field_name field, astNode_directives field).

Definition eraseType (type : GraphQLType)
  : string * TypeKind * list (string * (string * list DirectiveNode)) :=
  (type_name type, type_kind type,
   map (fun p => (fst p, eraseField (snd p))) (type_fields type)).

Definition eraseSchema (schema : GraphQLSchema)
  : list (string * (string * TypeKind *
                    list (string * (string * list DirectiveNode))))
    * list GraphQLDirective :=
  (map (fun p => (fst p, eraseType (snd p))) (typeMap schema), directives schema).

(** The functions the table registers for a field, in the order of the
    table. *)
Definition registeredIn (fieldName : string)
    (entries : list (string * HandlerFunction)) : list HandlerFunction :=
  map snd (List.filter (fun p => bool_decide (fst p = fieldName)) entries).

Fixpoint registered (resolverMap : list (string * list (string * HandlerFunction)))
    (typeName fieldName : string) : list HandlerFunction :=
  match resolverMap with
  | [] => []
  | (typeName', entries) :: rest =>
      (if bool_decide (typeName' = typeName)
       then registeredIn fieldName entries else [])
      ++ registered rest typeName fieldName
  end.

(** The field with the last of the functions [fns] as its resolver, or
    as it is when there is none. *)
Definition withLast (fns : list HandlerFunction) (field : GraphQLField)
  : GraphQLField :=
  match last fns with
  | Some fn => setResolve (callResolver fn) field
  | None => field
  end.

(** What [assignInType] does to one entry of the type map. *)
Definition assignedType (typeName' fieldName : string) (fn : HandlerFunction)
    (p : string * GraphQLType) : string * GraphQLType :=
  if bool_decide (fst p = typeName')
  then (fst p,
        {| type_name := type_name (snd p);
           type_kind := type_kind (snd p);
           type_fields := assignResolve fieldName fn (type_fields (snd p)) |})
  else p.

(** The schema has a type of that name, and the type has fields. *)
Definition hasFields (schema : GraphQLSchema) (typeName : string) : Prop :=
  ∃ type, getType schema typeName = Some type ∧ is_Some (getFields type).

(** Every field of every type of the schema satisfies [P]. *)
Definition allFields (P : GraphQLField -> Prop) (schema : GraphQLSchema) : Prop :=
  ∀ typeName type fieldName field,
    (typeName, type) ∈ typeMap schema ->
    (fieldName, field) ∈ type_fields type ->
    P field.

(** How one type of the schema looks after wiring: a visited type has
    its fields wired one by one, any other type is as it was. *)
Definition wiredType (engine : Engine) (resolverMap : gmap string DirectiveFunction)
    (schema : GraphQLSchema) (p p' : string * GraphQLType) : Prop :=
  fst p' = fst p ∧
  if visited (snd p)
  then type_name (snd p') = type_name (snd p)
       ∧ type_kind (snd p') = type_kind (snd p)
       ∧ Forall2 (fun q q' =>
                    fst q' = fst q
                    ∧ installResolvers engine resolverMap schema (snd q)
                      = Ok (snd q'))
           (type_fields (snd p)) (type_fields (snd p'))
  else snd p' = snd p.

(** What discovery at [location] with [variables] yields for the
    directive [d]: its name, the handler the table has for it and the
    arguments the engine resolves for its declaration. *)
Definition discoveredFor (engine : Engine)
    (resolverMap : gmap string DirectiveFunction) (schema : GraphQLSchema)
    (location : DirectiveLocation) (variables : option (gmap string Value))
    (d : DirectiveNode) (p : string * DirectiveInfo) : Prop :=
  fst p = dir_name d
  ∧ resolverMap !! dir_name d = Some (info_resolver (snd p))
  ∧ ∃ Directive,
      getDirective schema (dir_name d) = Some Directive
      ∧ location ∈ locations Directive
      ∧ getDirectiveValues engine Directive d variables = Ok (info_args (snd p)).

(** The body never changes the heap. *)
Inductive readOnly : Body -> Prop :=
| readOnly_Return v : readOnly (Return v)
| readOnly_Throw e : readOnly (Throw e)
| readOnly_Resolve k : (∀ o, readOnly (k o)) -> readOnly (Resolve k)
| readOnly_Update upd next :
    (∀ h, upd h = h) -> (∀ h, readOnly (next h)) -> readOnly (Update upd next).

(** * Properties *)

(** ** Runs of bodies and calls *)


Lemma runBody_settles b k w o h :
  settles b (heap w) = Some (o, h) -> runs (runBody b k) w o h [].
Proof.
  revert w. induction b as [v|e|k' IH|upd next IH]; intros w Hs; simpl in Hs.
  - injection Hs as <- <-. unfold runs. simpl. rewrite app_nil_r. by destruct w.
  - injection Hs as <- <-. unfold runs. simpl. rewrite app_nil_r. by destruct w.
  - discriminate.
  - specialize (IH (heap w) {| heap := upd (heap w); calls := calls w |} Hs).
    unfold runs in *. simpl in *. exact IH.
Qed.

Lemma finishes_settles b h :
  finishes b -> ∃ o h', settles b h = Some (o, h').
Proof.
  intros Hf. revert h. induction Hf as [v|e|upd next _ IH]; intros h; simpl; eauto.
Qed.


(** A property of logs that holds of the empty log and of the
    concatenation of two logs holds of what a body adds to the log, if it
    holds of what each call of the continuation adds. *)
Lemma runBody_invariant (P : list Event -> Prop) (k : M Value) :
  P [] -> (∀ l1 l2, P l1 -> P l2 -> P (l1 ++ l2)) ->
  (∀ w, ∃ o h evs, runs k w o h evs ∧ P evs) ->
  ∀ b w, ∃ o h evs, runs (runBody b k) w o h evs ∧ P evs.
Proof.
  intros Hnil Happ Hk.
  induction b as [v|e|k' IH|upd next IH]; intros w.
  - exists (Ok v), (heap w), []. split; [|done].
    unfold runs. simpl. rewrite app_nil_r. by destruct w.
  - exists (Err e), (heap w), []. split; [|done].
    unfold runs. simpl. rewrite app_nil_r. by destruct w.
  - destruct (Hk w) as (o1 & h1 & evs1 & Hr1 & HP1).
    destruct (IH o1 {| heap := h1; calls := calls w ++ evs1 |})
      as (o & h & evs & Hr & HP).
    exists o, h, (evs1 ++ evs). split; [|by apply Happ].
    unfold runs in *. simpl in *. rewrite Hr1. rewrite Hr. by rewrite app_assoc.
  - destruct (IH (heap w) {| heap := upd (heap w); calls := calls w |})
      as (o & h & evs & Hr & HP).
    exists o, h, evs. split; [|done]. exact Hr.
Qed.

Lemma callDirective_runs location name resolver k source dargs context info args
    w o h evs :
  runs (runBody (resolver source dargs context info args) k)
    (record (Enter (DirectiveHandler location name) context) w) o h evs ->
  runs (callDirective location name resolver k source dargs context info args)
    w o h
    (Enter (DirectiveHandler location name) context :: evs
       ++ failTail (DirectiveHandler location name) o).
Proof.
  unfold runs, callDirective. intros ->. simpl.
  destruct o; simpl; unfold record; simpl;
    rewrite <- ?app_assoc; simpl; by rewrite ?app_nil_r.
Qed.

Lemma callResolver_runs f source args context info w :
  ∃ o h,
    f source args context info (heap w) = (o, h) ∧
    runs (callResolver f source args context info) w o h
      (Enter BaseResolver context :: failTail BaseResolver o).
Proof.
  unfold runs, callResolver. simpl.
  destruct (f source args context info (heap w)) as [o h] eqn:Hf.
  exists o, h. split; [done|].
  destruct o; simpl; unfold record; simpl; by rewrite <- ?app_assoc.
Qed.

(** The same for a whole chain of handlers around a computation. *)
Lemma nest_invariant (P : list Event -> Prop) location outerFirst base
    source context info args :
  P [] -> (∀ l1 l2, P l1 -> P l2 -> P (l1 ++ l2)) ->
  (∀ name e, name ∈ outerFirst.*1 ->
     P [Enter (DirectiveHandler location name) context]
     ∧ P [Fail (DirectiveHandler location name) e]) ->
  (∀ w, ∃ o h evs, runs base w o h evs ∧ P evs) ->
  ∀ w, ∃ o h evs,
    runs (nest location outerFirst base source context info args) w o h evs
    ∧ P evs.
Proof.
  intros Hnil Happ.
  induction outerFirst as [|[name di] inner IH]; intros Hnames Hbase w; simpl.
  - apply Hbase.
  - assert (Hk : ∀ w, ∃ o h evs,
               runs (nest location inner base source context info args) w o h evs
               ∧ P evs).
    { apply IH; [|done]. intros n e Hn. apply Hnames. simpl. by right. }
    destruct (runBody_invariant P _ Hnil Happ Hk
                (info_resolver di source (info_args di) context info args)
                (record (Enter (DirectiveHandler location name) context) w))
      as (o & h & evs & Hr & HP).
    exists o, h, (Enter (DirectiveHandler location name) context :: evs
                  ++ failTail (DirectiveHandler location name) o).
    split; [by apply callDirective_runs|].
    assert (Hin : name ∈ ((name, di) :: inner).*1) by (simpl; left).
    change (P ([Enter (DirectiveHandler location name) context]
               ++ (evs ++ failTail (DirectiveHandler location name) o))).
    apply Happ; [by apply (Hnames name (TypeError "") Hin)|].
    apply Happ; [done|].
    destruct o as [v|e]; simpl; [done|]. by apply (Hnames name e Hin).
Qed.

Lemma runBody_ext b k k' :
  (∀ w, k w = k' w) -> ∀ w, runBody b k w = runBody b k' w.
Proof.
  intros Hk. induction b as [v|e|k0 IH|upd next IH]; intros w; simpl.
  - done.
  - done.
  - rewrite Hk. destruct (k' w) as [o w']. apply IH.
  - apply IH.
Qed.

Lemma nest_ext location outerFirst base base' source context info info' args :
  (∀ name di, (name, di) ∈ outerFirst ->
     info_resolver di source (info_args di) context info args
     = info_resolver di source (info_args di) context info' args) ->
  (∀ w, base w = base' w) ->
  ∀ w, nest location outerFirst base source context info args w
       = nest location outerFirst base' source context info' args w.
Proof.
  induction outerFirst as [|[name di] inner IH]; intros Hshape Hbase w; simpl.
  - apply Hbase.
  - unfold callDirective. rewrite <- (Hshape name di) by left.
    rewrite (runBody_ext _ _
               (nest location inner base' source context info' args)); [done|].
    apply IH; [|done]. intros n d Hin. apply (Hshape n d). by right.
Qed.

(** ** What the two folds build *)

Section Folds.
Variable engine : Engine.
Variable resolverMap : gmap string DirectiveFunction.
Variable schema : GraphQLSchema.

Lemma nest_app location l1 l2 base source context info args :
  nest location (l1 ++ l2) base source context info args
  = nest location l1 (nest location l2 base source context info args)
      source context info args.
Proof.
  induction l1 as [|[name di] l1 IH]; simpl; [done|]. by rewrite IH.
Qed.

Lemma discover_names location variables ds dis :
  discover engine resolverMap schema location variables ds = Ok dis ->
  dis.*1 = map dir_name ds.
Proof.
  revert dis. induction ds as [|d ds IH]; intros dis; simpl.
  - by intros [= <-].
  - destruct (getDirectiveInfo _ _ _ _ _ _) as [di|e]; [|done].
    destruct (discover _ _ _ _ _ ds) as [rest|e]; [|done].
    intros [= <-]. simpl. f_equal. by apply IH.
Qed.

Lemma discover_info location variables ds dis name di :
  discover engine resolverMap schema location variables ds = Ok dis ->
  (name, di) ∈ dis ->
  ∃ d, d ∈ ds ∧ dir_name d = name ∧
       getDirectiveInfo engine d resolverMap schema location variables = Ok di.
Proof.
  revert dis. induction ds as [|d ds IH]; intros dis; simpl.
  - intros [= <-] Hin. by apply elem_of_nil in Hin.
  - destruct (getDirectiveInfo _ _ _ _ _ _) as [di0|e] eqn:Hd; [|done].
    destruct (discover _ _ _ _ _ ds) as [rest|e]; [|done].
    intros [= <-] Hin. apply elem_of_cons in Hin as [[= -> ->]|Hin].
    + exists d. split; [left|done].
    + destruct (IH rest eq_refl Hin) as (d' & Hd' & Hn & Hi).
      exists d'. split; [by right|done].
Qed.


Lemma reduce_executionStep ds init :
  match discover engine resolverMap schema FIELD_DEFINITION None ds with
  | Err e => reduce (executionStep engine resolverMap schema) ds init = Err e
  | Ok dis =>
      ∃ r, reduce (executionStep engine resolverMap schema) ds init = Ok r ∧
           ∀ source args context info,
             r source args context info
             = nest FIELD_DEFINITION (reverse dis)
                 (init source args context info) source context info args
  end.
Proof.
  revert init. induction ds as [|d ds IH]; intros init; simpl.
  - by exists init.
  - unfold executionStep at 1 3.
    destruct (getDirectiveInfo _ _ _ _ _ _) as [di|e]; [|done].
    match goal with
    | |- context [reduce _ ds ?r1] => specialize (IH r1)
    end.
    destruct (discover _ _ _ _ _ ds) as [rest|e]; [|done].
    destruct IH as (r & Hr & Hnest). exists r. split; [done|].
    intros source args context info. rewrite Hnest, reverse_cons.
    by rewrite nest_app.
Qed.

Lemma reduce_usageStep source args context info ds init :
  match discover engine resolverMap schema FIELD
          (Some (variableValues info)) ds with
  | Err e =>
      reduce (usageStep engine resolverMap schema source args context info)
        ds init = Err e
  | Ok dis =>
      ∃ r, reduce (usageStep engine resolverMap schema source args context info)
             ds init = Ok r ∧
           (ds ≠ [] ->
            r source args context info
            = nest FIELD (reverse dis) (init source args context info)
                source context info args)
  end.
Proof.
  revert init. induction ds as [|d ds IH]; intros init; simpl.
  - by exists init.
  - unfold usageStep at 1 3.
    destruct (getDirectiveInfo _ _ _ _ _ _) as [di|e]; [|done].
    match goal with
    | |- context [reduce _ ds ?r1] => specialize (IH r1)
    end.
    destruct (discover _ _ _ _ _ ds) as [rest|e] eqn:Hdis; [|done].
    destruct IH as (r & Hr & Hnest). exists r. split; [done|].
    intros _. destruct ds as [|d' ds'].
    + simpl in Hdis. injection Hdis as <-. simpl in Hr.
      injection Hr as <-. done.
    + rewrite Hnest; [|done]. rewrite (reverse_cons rest). by rewrite nest_app.
Qed.

Lemma createFieldExecutionResolver_spec field :
  match discover engine resolverMap schema FIELD_DEFINITION None
          (filterCustomDirectives (astNode_directives field)) with
  | Err e => createFieldExecutionResolver engine field resolverMap schema = Err e
  | Ok dis =>
      ∃ r, createFieldExecutionResolver engine field resolverMap schema = Ok r ∧
           ∀ source args context info,
             r source args context info
             = nest FIELD_DEFINITION (reverse dis)
                 (getFieldResolver engine field source args context info)
                 source context info args
  end.
Proof.
  unfold createFieldExecutionResolver.
  destruct (filterCustomDirectives (astNode_directives field)) as [|d ds] eqn:Hds.
  - simpl. by exists (getFieldResolver engine field).
  - rewrite bool_decide_eq_false_2 by done.
    apply (reduce_executionStep (d :: ds) (createAsyncResolver engine field)).
Qed.

Lemma createFieldResolver_spec field source args context info node0 rest :
  fieldNodes info = node0 :: rest ->
  match discover engine resolverMap schema FIELD (Some (variableValues info))
          (filterCustomDirectives (node_directives node0)) with
  | Err e =>
      createFieldResolver engine field resolverMap schema source args context info
      = throw e
  | Ok dis =>
      createFieldResolver engine field resolverMap schema source args context info
      = nest FIELD (reverse dis)
          (getFieldResolver engine field source args context info)
          source context info args
  end.
Proof.
  intros Hnodes. unfold createFieldResolver. rewrite Hnodes.
  destruct (filterCustomDirectives (node_directives node0)) as [|d ds] eqn:Hds.
  - done.
  - rewrite bool_decide_eq_false_2 by done.
    pose proof (reduce_usageStep source args context info (d :: ds)
                  (createAsyncResolver engine field)) as H.
    destruct (discover _ _ _ _ _ (d :: ds)) as [dis|e].
    + destruct H as (r & -> & Hr). by apply Hr.
    + by rewrite H.
Qed.

Lemma installResolvers_spec field field' :
  installResolvers engine resolverMap schema field = Ok field' ->
  ∃ r, createFieldExecutionResolver engine field resolverMap schema = Ok r ∧
       getFieldResolver engine field'
       = createFieldResolver engine (setResolve r field) resolverMap schema ∧
       getFieldResolver engine (setResolve r field) = r.
Proof.
  unfold installResolvers.
  destruct (createFieldExecutionResolver _ _ _ _) as [r|e]; [|done].
  intros [= <-]. by exists r.
Qed.

End Folds.

(** ** Invariants of the log of a wired field *)

Section Wired.
Variable engine : Engine.
Variable resolverMap : gmap string DirectiveFunction.
Variable schema : GraphQLSchema.

Lemma custom_names ds name :
  name ∈ map dir_name (filterCustomDirectives ds) ->
  name ∉ BUILT_IN_DIRECTIVES.
Proof.
  intros Hin. apply list_elem_of_fmap in Hin as (d & -> & Hd).
  unfold filterCustomDirectives in Hd.
  by apply list_elem_of_filter in Hd as [Hd _].
Qed.

Lemma unwired_invariant (P : list Event -> Prop) field source args context info :
  unwired field ->
  (∀ l1 l2, P l1 -> P l2 -> P (l1 ++ l2)) ->
  (∀ e, P [Enter BaseResolver context] ∧ P [Fail BaseResolver e]) ->
  ∀ w, ∃ o h evs,
    runs (getFieldResolver engine field source args context info) w o h evs
    ∧ P evs.
Proof.
  intros Hun Happ Hbase w.
  assert (Hcall : ∀ f, ∃ o h evs,
             runs (callResolver f source args context info) w o h evs ∧ P evs).
  { intros f.
    destruct (callResolver_runs f source args context info w) as (o & h & _ & Hr).
    exists o, h, (Enter BaseResolver context :: failTail BaseResolver o).
    split; [done|]. destruct o as [v|e]; simpl.
    - apply (Hbase (TypeError "")).
    - change (P ([Enter BaseResolver context] ++ [Fail BaseResolver e])).
      apply Happ; apply (Hbase e). }
  unfold getFieldResolver.
  destruct Hun as [->|[f ->]]; apply Hcall.
Qed.

Lemma declared_invariant (P : list Event -> Prop) field r source args context info :
  unwired field ->
  createFieldExecutionResolver engine field resolverMap schema = Ok r ->
  P [] -> (∀ l1 l2, P l1 -> P l2 -> P (l1 ++ l2)) ->
  (∀ e, P [Enter BaseResolver context] ∧ P [Fail BaseResolver e]) ->
  (∀ name e, name ∉ BUILT_IN_DIRECTIVES ->
     P [Enter (DirectiveHandler FIELD_DEFINITION name) context]
     ∧ P [Fail (DirectiveHandler FIELD_DEFINITION name) e]) ->
  ∀ w, ∃ o h evs, runs (r source args context info) w o h evs ∧ P evs.
Proof.
  intros Hun Hr Hnil Happ Hbase Hdir.
  pose proof (createFieldExecutionResolver_spec engine resolverMap schema field) as Hspec.
  destruct (discover _ _ _ _ _ _) as [dis|e] eqn:Hdis; [|congruence].
  destruct Hspec as (r' & Hr' & Hnest).
  assert (r' = r) as -> by congruence.
  intros w. rewrite Hnest.
  apply nest_invariant; [done|done| |by apply unwired_invariant].
  intros name e Hin. apply Hdir.
  rewrite fmap_reverse, elem_of_reverse in Hin.
  rewrite (discover_names _ _ _ _ _ _ _ Hdis) in Hin.
  by eapply custom_names.
Qed.

Lemma installed_invariant (P : list Event -> Prop) field field'
    source args context info :
  unwired field ->
  installResolvers engine resolverMap schema field = Ok field' ->
  P [] -> (∀ l1 l2, P l1 -> P l2 -> P (l1 ++ l2)) ->
  (∀ e, P [Enter BaseResolver context] ∧ P [Fail BaseResolver e]) ->
  (∀ location name e, name ∉ BUILT_IN_DIRECTIVES ->
     P [Enter (DirectiveHandler location name) context]
     ∧ P [Fail (DirectiveHandler location name) e]) ->
  ∀ w, ∃ o h evs,
    runs (getFieldResolver engine field' source args context info) w o h evs
    ∧ P evs.
Proof.
  intros Hun Hinst Hnil Happ Hbase Hdir w.
  destruct (installResolvers_spec _ _ _ _ _ Hinst) as (r & Hr & -> & Hget).
  assert (Hempty : ∀ (o : Outcome Value), ∃ o' h evs,
             runs (lift o) w o' h evs ∧ P evs).
  { intros o. exists o, (heap w), []. split; [|done].
    unfold runs, lift. rewrite app_nil_r. by destruct w. }
  destruct (fieldNodes info) as [|node0 rest] eqn:Hnodes.
  - unfold createFieldResolver. rewrite Hnodes. apply (Hempty (Err _)).
  - pose proof (createFieldResolver_spec engine resolverMap schema
                  (setResolve r field) source args context info node0 rest Hnodes)
      as Hspec.
    destruct (discover _ _ _ _ _ _) as [dis|e] eqn:Hdis.
    + rewrite Hspec, Hget.
      apply nest_invariant; [done|done| |].
      * intros name e Hin. apply Hdir.
        rewrite fmap_reverse, elem_of_reverse in Hin.
        rewrite (discover_names _ _ _ _ _ _ _ Hdis) in Hin.
        by eapply custom_names.
      * intros w'.
      apply (declared_invariant P field r); [done|done|done|done|done|].
      intros name e Hname. by apply Hdir.
    + rewrite Hspec. apply (Hempty (Err e)).
Qed.

End Wired.

(** ** Directive discovery *)

(** The checks of discovery, in their order, for one directive usage at
    an attachment location ([FIELD_DEFINITION] at the declaration site,
    [FIELD] at the usage site): a name without declaration in the schema
    fails with [UndeclaredDirective]; else a declaration whose locations
    do not include the attachment location fails with
    [InvalidDirectiveLocation]; else a name under which the lookup in the
    table finds nothing fails with [MissingDirectiveHandler]; otherwise
    discovery yields what the lookup found, with the arguments the engine
    resolved. *)
Lemma getDirectiveInfo_checks engine directive resolverMap schema location
    variables :
  (getDirective schema (dir_name directive) = None ->
   getDirectiveInfo engine directive resolverMap schema location variables
   = Err (UndeclaredDirective (dir_name directive)))
  ∧ (∀ Directive,
       getDirective schema (dir_name directive) = Some Directive ->
       location ∉ locations Directive ->
       getDirectiveInfo engine directive resolverMap schema location variables
       = Err (InvalidDirectiveLocation (dir_name directive) location))
  ∧ (∀ Directive,
       getDirective schema (dir_name directive) = Some Directive ->
       location ∈ locations Directive ->
       resolverMap !! dir_name directive = None ->
       getDirectiveInfo engine directive resolverMap schema location variables
       = Err (MissingDirectiveHandler (dir_name directive)))
  ∧ (∀ Directive resolver args,
       getDirective schema (dir_name directive) = Some Directive ->
       location ∈ locations Directive ->
       resolverMap !! dir_name directive = Some resolver ->
       getDirectiveValues engine Directive directive variables = Ok args ->
       getDirectiveInfo engine directive resolverMap schema location variables
       = Ok {| info_args := args; info_resolver := resolver |}).
Proof.
  unfold getDirectiveInfo. repeat split.
  - by intros ->.
  - intros D -> Hloc. by rewrite bool_decide_eq_false_2.
  - intros D -> Hloc ->. by rewrite bool_decide_eq_true_2.
  - intros D resolver args -> Hloc -> ->. by rewrite bool_decide_eq_true_2.
Qed.

Lemma getDirectiveInfo_checks_witness :
  getDirectiveInfo Readme.engine {| dir_name := "nope"; dir_arguments := [] |}
    Readme.directives Readme.schema FIELD None
  = Err (UndeclaredDirective "nope")
  ∧ getDirectiveInfo Readme.engine {| dir_name := "upper"; dir_arguments := [] |}
      Readme.directives Readme.schema FIELD_DEFINITION None
    = Err (InvalidDirectiveLocation "upper" FIELD_DEFINITION)
  ∧ getDirectiveInfo Readme.engine {| dir_name := "upper"; dir_arguments := [] |}
      ∅ Readme.schema FIELD None
    = Err (MissingDirectiveHandler "upper")
  ∧ getDirectiveInfo Readme.engine {| dir_name := "upper"; dir_arguments := [] |}
      Readme.directives Readme.schema FIELD None
    = Ok {| info_args := ∅; info_resolver := Readme.upper |}.
Proof.
  split; [|split; [|split]].
  - apply (getDirectiveInfo_checks Readme.engine
             {| dir_name := "nope"; dir_arguments := [] |}).
    reflexivity.
  - apply (proj1 (proj2 (getDirectiveInfo_checks Readme.engine
             {| dir_name := "upper"; dir_arguments := [] |}
             Readme.directives Readme.schema FIELD_DEFINITION None))
             {| directive_name := "upper"; locations := [FIELD];
                directive_args := [] |}).
    + reflexivity.
    + vm_compute. intros H. inversion H as [|? ? ? H']. inversion H'.
  - apply (proj1 (proj2 (proj2 (getDirectiveInfo_checks Readme.engine
             {| dir_name := "upper"; dir_arguments := [] |}
             ∅ Readme.schema FIELD None)))
             {| directive_name := "upper"; locations := [FIELD];
                directive_args := [] |}).
    + reflexivity.
    + left.
    + reflexivity.
  - apply (proj2 (proj2 (proj2 (getDirectiveInfo_checks Readme.engine
             {| dir_name := "upper"; dir_arguments := [] |}
             Readme.directives Readme.schema FIELD None)))
             {| directive_name := "upper"; locations := [FIELD];
                directive_args := [] |}).
    + reflexivity.
    + left.
    + reflexivity.
    + reflexivity.
Defined.

Lemma plainObject_own prototype own name resolver :
  own !! name = Some resolver ->
  plainObject prototype own !! name = Some resolver.
Proof. intros Hown. unfold plainObject. by apply lookup_union_Some_l. Qed.

(** The lookup in an object literal finds an inherited member under a
    name the literal has no entry for, and discovery takes it for the
    handler. *)
Lemma plainObject_inherited engine prototype own directive schema location
    variables Directive member args :
  own !! dir_name directive = None ->
  prototype !! dir_name directive = Some member ->
  getDirective schema (dir_name directive) = Some Directive ->
  location ∈ locations Directive ->
  getDirectiveValues engine Directive directive variables = Ok args ->
  getDirectiveInfo engine directive (plainObject prototype own) schema
    location variables
  = Ok {| info_args := args; info_resolver := member |}.
Proof.
  intros Hown Hproto HD Hloc Hargs. unfold getDirectiveInfo.
  rewrite HD, bool_decide_eq_true_2 by done. simpl.
  unfold plainObject. rewrite lookup_union_r by done.
  by rewrite Hproto, Hargs.
Qed.


(** ** Built-in directives *)

Lemma filterCustomDirectives_elem ds d :
  d ∈ filterCustomDirectives ds ↔ d ∈ ds ∧ ¬ isBuiltIn d.
Proof.
  unfold filterCustomDirectives, isBuiltIn. rewrite list_elem_of_filter. tauto.
Qed.

Lemma filterCustomDirectives_idemp ds :
  filterCustomDirectives (filterCustomDirectives ds) = filterCustomDirectives ds.
Proof.
  unfold filterCustomDirectives.
  induction ds as [|d ds IH]; [done|].
  rewrite filter_cons. case_decide as Hd; [|done].
  rewrite filter_cons. rewrite decide_True by done. by rewrite IH.
Qed.

Lemma filterCustomDirectives_builtins ds :
  Forall isBuiltIn ds -> filterCustomDirectives ds = [].
Proof.
  unfold filterCustomDirectives, isBuiltIn.
  induction 1 as [|d ds Hd _ IH]; [done|].
  rewrite filter_cons. by rewrite decide_False by tauto.
Qed.


(** C9.  At both sites the directives named [skip], [include] and
    [deprecated] are dropped before anything else is done with the list:
    composition sees the filtered list only, so for them there is no
    check against the schema, no lookup in the table and no call; a field
    (or field node) that carries built-ins only is resolved by the very
    resolver it has with no directive at all, whatever the schema and the
    table hold; and no call of a wired field is ever made under one of
    those names. *)
Theorem builtin_directives_not_intercepted engine resolverMap schema field :
  (∀ d, isBuiltIn d ↔
        dir_name d = "deprecated" ∨ dir_name d = "skip" ∨ dir_name d = "include")
  ∧ (∀ ds d, d ∈ filterCustomDirectives ds ↔ d ∈ ds ∧ ¬ isBuiltIn d)
  ∧ createFieldExecutionResolver engine field resolverMap schema
    = createFieldExecutionResolver engine
        (withDirectives (filterCustomDirectives (astNode_directives field)) field)
        resolverMap schema
  ∧ (Forall isBuiltIn (astNode_directives field) ->
     createFieldExecutionResolver engine field resolverMap schema
     = Ok (getFieldResolver engine field)
     ∧ createFieldExecutionResolver engine field resolverMap schema
       = createFieldExecutionResolver engine (withDirectives [] field)
           resolverMap schema)
  ∧ (∀ source args context info node0 rest,
       fieldNodes info = node0 :: rest ->
       Forall isBuiltIn (node_directives node0) ->
       createFieldResolver engine field resolverMap schema source args context info
       = getFieldResolver engine field source args context info)
  ∧ (∀ field' source args context info w,
       unwired field ->
       installResolvers engine resolverMap schema field = Ok field' ->
       ∃ o h evs,
         runs (getFieldResolver engine field' source args context info) w o h evs
         ∧ ∀ location name c,
             Enter (DirectiveHandler location name) c ∈ evs ->
             name ∉ BUILT_IN_DIRECTIVES).
Proof.
  split; [|split; [|split; [|split; [|split]]]].
  - intros d. unfold isBuiltIn, BUILT_IN_DIRECTIVES.
    rewrite !elem_of_cons, elem_of_nil. tauto.
  - apply filterCustomDirectives_elem.
  - unfold createFieldExecutionResolver. simpl.
    by rewrite filterCustomDirectives_idemp.
  - intros Hall. unfold createFieldExecutionResolver. simpl.
    by rewrite (filterCustomDirectives_builtins _ Hall).
  - intros source args context info node0 rest Hnodes Hall.
    unfold createFieldResolver. rewrite Hnodes.
    by rewrite (filterCustomDirectives_builtins _ Hall).
  - intros field' source args context info w Hun Hinst.
    apply (installed_invariant engine resolverMap schema
             (fun evs => ∀ location name c,
                Enter (DirectiveHandler location name) c ∈ evs ->
                name ∉ BUILT_IN_DIRECTIVES) field field'); [done|done| | | |].
    + intros ??? Hin. by apply elem_of_nil in Hin.
    + intros l1 l2 H1 H2 ??? Hin. apply elem_of_app in Hin as [Hin|Hin]; eauto.
    + intros e. split; intros ??? Hin; by apply list_elem_of_singleton in Hin.
    + intros location name e Hname.
      split; intros ??? Hin; apply list_elem_of_singleton in Hin; by simplify_eq.
Qed.

Lemma builtin_directives_not_intercepted_witness :
  createFieldExecutionResolver Readme.engine
    {| field_name := "old";
       astNode_directives := [ {| dir_name := "deprecated"; dir_arguments := [] |} ];
       resolve := None |} ∅ {| typeMap := []; directives := [] |}
  = Ok (getFieldResolver Readme.engine
          {| field_name := "old";
             astNode_directives := [ {| dir_name := "deprecated"; dir_arguments := [] |} ];
             resolve := None |}).
Proof.
  apply (builtin_directives_not_intercepted Readme.engine ∅
           {| typeMap := []; directives := [] |}
           {| field_name := "old";
              astNode_directives := [ {| dir_name := "deprecated"; dir_arguments := [] |} ];
              resolve := None |}).
  apply Forall_cons. split; [|apply Forall_nil_2].
  unfold isBuiltIn, BUILT_IN_DIRECTIVES. simpl. left.
Defined.

(** ** Binding the resolver table *)

(** An entry under a field name the type does not have is skipped by the
    guard of the inner loop. *)
Lemma bindFields_unknown_field typeName fieldName fn rest schema fieldsNames :
  fieldName ∉ fieldsNames ->
  bindFields typeName ((fieldName, fn) :: rest) schema fieldsNames
  = bindFields typeName rest schema fieldsNames.
Proof. intros Hnot. simpl. by rewrite bool_decide_eq_false_2. Qed.

(** The outer loop has no such guard: a type name the schema does not
    have stops the wiring. *)
Lemma bindTypes_unknown_type typeName entries rest schema :
  getType schema typeName = None ->
  bindTypes ((typeName, entries) :: rest) schema
  = Err (TypeError "Cannot read properties of undefined (reading 'getFields')").
Proof. intros Hnone. simpl. by rewrite Hnone. Qed.

(** C8, on the code.  With the schema of the README: an entry for a field
    name that [Person] does not have leaves the schema as it is, but an
    entry under a type name the schema does not have, or under the name of
    a scalar, makes [buildSchemaWithResolvers] throw a [TypeError]. *)
Theorem buildSchemaWithResolvers_unknown_type_throws :
  buildSchemaWithResolvers Readme.engine
    [("Person", [("nickname", Readme.get)])] "" None
  = Ok Readme.schema
  ∧ buildSchemaWithResolvers Readme.engine
      (Readme.handlers ++ [("Address", [("street", Readme.get)])]) ""
      (Some Readme.directives)
    = Err (TypeError "Cannot read properties of undefined (reading 'getFields')")
  ∧ buildSchemaWithResolvers Readme.engine
      [("String", [("length", Readme.get)])] "" None
    = Err (TypeError "type.getFields is not a function").
Proof. repeat split. Qed.

(** ** Failures of discovery *)



Lemma throw_runs (e : Error) w : runs (throw e) w (Err e : Outcome Value) (heap w) [].
Proof. unfold runs, throw. rewrite app_nil_r. by destruct w. Qed.




(** ** The order of calls *)

Lemma entered_app l1 l2 : entered (l1 ++ l2) = entered l1 ++ entered l2.
Proof. apply omap_app. Qed.

Lemma entered_failTail {A} who (o : Outcome A) : entered (failTail who o) = [].
Proof. by destruct o. Qed.


Lemma runBody_once b k B :
  resolvesOnce b ->
  (∀ w, ∃ o h evs, runs k w o h evs ∧ entered evs = B) ->
  ∀ w, ∃ o h evs, runs (runBody b k) w o h evs ∧ entered evs = B.
Proof.
  intros Hb Hk. induction Hb as [k' Hfin|upd next _ IH]; intros w.
  - destruct (Hk w) as (o1 & h1 & evs1 & Hr1 & HB).
    destruct (finishes_settles (k' o1) h1 (Hfin o1)) as (o & h & Hs).
    pose proof (runBody_settles (k' o1) k
                  {| heap := h1; calls := calls w ++ evs1 |} o h Hs) as Hr.
    exists o, h, evs1. split; [|done].
    unfold runs in *. simpl in *. rewrite Hr1, Hr. by rewrite app_nil_r.
  - destruct (IH (heap w) {| heap := upd (heap w); calls := calls w |})
      as (o & h & evs & Hr & HB).
    by exists o, h, evs.
Qed.

Lemma nest_once location outerFirst base source context info args B :
  (∀ name di, (name, di) ∈ outerFirst ->
     resolvesOnce (info_resolver di source (info_args di) context info args)) ->
  (∀ w, ∃ o h evs, runs base w o h evs ∧ entered evs = B) ->
  ∀ w, ∃ o h evs,
    runs (nest location outerFirst base source context info args) w o h evs
    ∧ entered evs = map (DirectiveHandler location) outerFirst.*1 ++ B.
Proof.
  induction outerFirst as [|[name di] inner IH]; intros Hshape Hbase w; simpl.
  - apply Hbase.
  - destruct (runBody_once
                (info_resolver di source (info_args di) context info args)
                (nest location inner base source context info args)
                (map (DirectiveHandler location) inner.*1 ++ B))
      with (w := record (Enter (DirectiveHandler location name) context) w)
      as (o & h & evs & Hr & HB).
    { apply (Hshape name di). left. }
    { apply IH; [|done]. intros n d Hin. apply (Hshape n d). by right. }
    exists o, h, (Enter (DirectiveHandler location name) context :: evs
                  ++ failTail (DirectiveHandler location name) o).
    split; [by apply callDirective_runs|].
    simpl. rewrite entered_app, entered_failTail, app_nil_r. by rewrite HB.
Qed.

Lemma getDirectiveInfo_resolver engine d resolverMap schema location variables di :
  getDirectiveInfo engine d resolverMap schema location variables = Ok di ->
  resolverMap !! dir_name d = Some (info_resolver di).
Proof.
  unfold getDirectiveInfo.
  destruct (getDirective schema (dir_name d)) as [D|]; [|done].
  destruct (negb _); [done|].
  destruct (resolverMap !! dir_name d) as [resolver|]; [|done].
  destruct (getDirectiveValues engine D d variables) as [args|e]; [|done].
  by intros [= <-].
Qed.

Lemma discover_shape engine resolverMap schema location variables ds dis
    (P : Body -> Prop) name di source context info args :
  allHandlers P resolverMap ->
  discover engine resolverMap schema location variables ds = Ok dis ->
  (name, di) ∈ reverse dis ->
  P (info_resolver di source (info_args di) context info args).
Proof.
  intros Hall Hdis Hin. rewrite elem_of_reverse in Hin.
  destruct (discover_info _ _ _ _ _ _ _ _ _ Hdis Hin) as (d & _ & _ & Hd).
  apply getDirectiveInfo_resolver in Hd. exact (Hall _ _ _ _ _ _ _ Hd).
Qed.

Lemma discover_callees engine resolverMap schema location variables ds dis :
  discover engine resolverMap schema location variables ds = Ok dis ->
  map (DirectiveHandler location) (reverse dis).*1
  = reverse (handlersOf location ds).
Proof.
  intros Hdis. unfold handlersOf.
  rewrite fmap_reverse, (discover_names _ _ _ _ _ _ _ Hdis).
  change (map ?f ?l) with (f <$> l).
  rewrite fmap_reverse. f_equal. by rewrite <- list_fmap_compose.
Qed.

Lemma unwired_entered engine field source args context info w :
  unwired field ->
  ∃ o h evs,
    runs (getFieldResolver engine field source args context info) w o h evs
    ∧ entered evs = [BaseResolver].
Proof.
  intros Hun.
  assert (Hcall : ∀ f, ∃ o h evs,
             runs (callResolver f source args context info) w o h evs
             ∧ entered evs = [BaseResolver]).
  { intros f.
    destruct (callResolver_runs f source args context info w) as (o & h & _ & Hr).
    exists o, h, (Enter BaseResolver context :: failTail BaseResolver o).
    split; [done|]. simpl. by rewrite entered_failTail. }
  unfold getFieldResolver. destruct Hun as [->|[f ->]]; apply Hcall.
Qed.







(** ** Usage site around declaration site *)

Lemma usageFirst_nil outer : usageFirst outer [].
Proof. intros pre who c post Heq. by destruct pre. Qed.

Lemma usageFirst_fail outer who e : usageFirst outer [Fail who e].
Proof.
  intros pre who' c post Heq. destruct pre as [|ev pre]; [done|].
  by destruct pre.
Qed.

Lemma usageFirst_app outer l1 l2 :
  usageFirst outer l1 -> usageFirst outer l2 -> usageFirst outer (l1 ++ l2).
Proof.
  intros H1 H2 pre who c post Heq Hside name Hname.
  apply app_eq_app in Heq as [l [[-> Heq]|[-> Heq]]].
  - destruct l as [|ev l].
    + simpl in Heq.
      pose proof (H2 [] who c post (eq_sym Heq) Hside name Hname) as Hin.
      by apply elem_of_nil in Hin.
    + simpl in Heq. injection Heq as <- ->.
      by eapply (H1 pre who c l).
  - rewrite entered_app. apply elem_of_app. right.
    by eapply (H2 l who c post).
Qed.

Lemma nest_usageFirst outerFirst base source context info args :
  (∀ w, ∃ o h evs, runs base w o h evs) ->
  ∀ w, ∃ o h evs,
    runs (nest FIELD outerFirst base source context info args) w o h evs
    ∧ usageFirst outerFirst.*1 evs.
Proof.
  intros Hbase.
  induction outerFirst as [|[name di] inner IH]; intros w; simpl.
  - destruct (Hbase w) as (o & h & evs & Hr). exists o, h, evs. split; [done|].
    intros pre who c post _ _ n Hn. by apply elem_of_nil in Hn.
  - destruct (runBody_invariant (usageFirst inner.*1) _
                (usageFirst_nil _) (usageFirst_app _) IH
                (info_resolver di source (info_args di) context info args)
                (record (Enter (DirectiveHandler FIELD name) context) w))
      as (o & h & evs & Hr & HQ).
    exists o, h, (Enter (DirectiveHandler FIELD name) context :: evs
                  ++ failTail (DirectiveHandler FIELD name) o).
    split; [by apply callDirective_runs|].
    assert (HQ' : usageFirst inner.*1
                    (evs ++ failTail (DirectiveHandler FIELD name) o)).
    { apply usageFirst_app; [done|].
      destruct o; [apply usageFirst_nil|apply usageFirst_fail]. }
    intros pre who c post Heq Hside n Hn.
    destruct pre as [|ev pre].
    + simpl in Heq. injection Heq as <- _ _.
      destruct Hside as [?|[? ?]]; done.
    + simpl in Heq. injection Heq as <- Heq. simpl.
      apply elem_of_cons in Hn as [->|Hn]; [left|].
      right. by eapply (HQ' pre who c post).
Qed.

(** C2.  Whatever the handlers do, in every call of a wired field each
    call on the declaration side (a declaration-site handler, the base
    resolver) comes after the handler of every usage-site directive of
    the first field node has been entered: the usage-site chain lies
    around the declaration-site chain.  With handlers that call their
    continuation once the calls are those of the usage-site directives,
    last to first, then those of the declaration-site directives, last
    to first, then the base resolver.  For the README's
    [secret: String! @whatever @role(role: "ADMIN")] queried as
    [secret @upper], wired through [buildSchemaWithResolvers], the calls
    are [upper], [role], [whatever], the base resolver, and the value
    ["123456789abcd"] comes out as ["123456789ABCD"]. *)
Theorem usage_site_outside_declaration_site :
  (∀ engine resolverMap schema field field' source args context info node0 rest w,
     unwired field ->
     installResolvers engine resolverMap schema field = Ok field' ->
     fieldNodes info = node0 :: rest ->
     ∃ o h evs,
       runs (getFieldResolver engine field' source args context info) w o h evs
       ∧ usageFirst (map dir_name (filterCustomDirectives (node_directives node0)))
           evs)
  ∧ (∀ engine resolverMap schema field field' source args context info node0 rest
       dis w,
       unwired field ->
       installResolvers engine resolverMap schema field = Ok field' ->
       fieldNodes info = node0 :: rest ->
       discover engine resolverMap schema FIELD (Some (variableValues info))
         (filterCustomDirectives (node_directives node0)) = Ok dis ->
       allHandlers resolvesOnce resolverMap ->
       ∃ o h evs,
         runs (getFieldResolver engine field' source args context info) w o h evs
         ∧ entered evs
           = reverse (handlersOf FIELD
                        (filterCustomDirectives (node_directives node0)))
             ++ reverse (handlersOf FIELD_DEFINITION
                           (filterCustomDirectives (astNode_directives field)))
             ++ [BaseResolver])
  ∧ ∃ schema' field,
      Readme.wiredSchema = Ok schema'
      ∧ fieldOf schema' "Person" "secret" = Some field
      ∧ getFieldResolver Readme.engine field (VRef Readme.personLoc) ∅
          (VRef Readme.contextLoc) Readme.secretInfo Readme.initialWorld
        = (Ok (VStr "123456789ABCD"),
           {| heap := Readme.initialHeap;
              calls :=
                [ Enter (DirectiveHandler FIELD "upper") (VRef Readme.contextLoc);
                  Enter (DirectiveHandler FIELD_DEFINITION "role")
                    (VRef Readme.contextLoc);
                  Enter (DirectiveHandler FIELD_DEFINITION "whatever")
                    (VRef Readme.contextLoc);
                  Enter BaseResolver (VRef Readme.contextLoc) ] |}).
Proof.
  split; [|split].
  - intros engine resolverMap schema field field' source args context info
      node0 rest w Hun Hinst Hnodes.
    destruct (installResolvers_spec _ _ _ _ _ Hinst) as (r & Hr & -> & Hget).
    pose proof (createFieldResolver_spec engine resolverMap schema
                  (setResolve r field) source args context info node0 rest Hnodes)
      as Hspec.
    destruct (discover _ _ _ _ _ _) as [dis|e] eqn:Hdis.
    + rewrite Hspec, Hget.
      destruct (nest_usageFirst (reverse dis) (r source args context info)
                  source context info args) with (w := w)
        as (o & h & evs & Hruns & HQ).
      { intros w'.
        destruct (declared_invariant engine resolverMap schema (fun _ => True)
                    field r source args context info Hun Hr I
                    (fun _ _ _ _ => I) (fun _ => conj I I)
                    (fun _ _ _ => conj I I) w')
          as (o & h & evs & Hruns & _).
        by eauto. }
      exists o, h, evs. split; [done|].
      intros pre who c post Heq Hside name Hname.
      eapply HQ; [done|done|].
      rewrite fmap_reverse, elem_of_reverse.
      by rewrite (discover_names _ _ _ _ _ _ _ Hdis).
    + rewrite Hspec. exists (Err e), (heap w), []. split; [apply throw_runs|].
      apply usageFirst_nil.
  - intros engine resolverMap schema field field' source args context info
      node0 rest dis w Hun Hinst Hnodes Hdis Hall.
    destruct (installResolvers_spec _ _ _ _ _ Hinst) as (r & Hr & -> & Hget).
    pose proof (createFieldResolver_spec engine resolverMap schema
                  (setResolve r field) source args context info node0 rest Hnodes)
      as Hspec.
    rewrite Hdis in Hspec. rewrite Hspec, Hget.
    rewrite <- (discover_callees _ _ _ _ _ _ _ Hdis).
    apply nest_once.
    + intros name di Hin. by eapply discover_shape.
    + pose proof (createFieldExecutionResolver_spec engine resolverMap schema field)
        as Hspec'.
      destruct (discover _ _ _ FIELD_DEFINITION _ _) as [dis'|e] eqn:Hdis';
        [|congruence].
      destruct Hspec' as (r' & Hr' & Hnest). assert (r' = r) as -> by congruence.
      intros w'. rewrite Hnest.
      rewrite <- (discover_callees _ _ _ _ _ _ _ Hdis').
      apply nest_once.
      * intros name di Hin. by eapply discover_shape.
      * intros w''. by apply unwired_entered.
  - eexists. eexists. split; [reflexivity|]. split; [reflexivity|].
    vm_compute. reflexivity.
Qed.

Lemma usage_site_outside_declaration_site_witness :
  ∃ o h evs,
    runs (getFieldResolver Readme.engine Readme.wiredSecretField
            (VRef Readme.personLoc) ∅ (VRef Readme.contextLoc) Readme.secretInfo)
      Readme.initialWorld o h evs
    ∧ usageFirst
        (map dir_name
           (filterCustomDirectives [ {| dir_name := "upper"; dir_arguments := [] |} ]))
        evs.
Proof.
  apply (proj1 usage_site_outside_declaration_site Readme.engine Readme.directives
           Readme.schema Readme.secretField Readme.wiredSecretField
           (VRef Readme.personLoc) ∅ (VRef Readme.contextLoc) Readme.secretInfo
           {| node_name := "secret";
              node_directives := [ {| dir_name := "upper"; dir_arguments := [] |} ] |}
           [] Readme.initialWorld).
  - left. reflexivity.
  - reflexivity.
  - reflexivity.
Defined.

(** ** Short circuit *)

Lemma reduce_app {A B} (f : A -> B -> Outcome A) l1 l2 init :
  reduce f (l1 ++ l2) init
  = match reduce f l1 init with
    | Ok a => reduce f l2 a
    | Err e => Err e
    end.
Proof.
  revert init. induction l1 as [|x l1 IH]; intros init; simpl; [done|].
  destruct (f init x); [apply IH|done].
Qed.

Lemma reduce_split {A B} (f : A -> B -> Outcome A) inner d outer init r :
  reduce f (inner ++ d :: outer) init = Ok r ->
  ∃ ri rd,
    reduce f inner init = Ok ri ∧ f ri d = Ok rd ∧
    reduce f (inner ++ [d]) init = Ok rd ∧ reduce f outer rd = Ok r.
Proof.
  rewrite reduce_app. destruct (reduce f inner init) as [ri|e] eqn:Hi; [|done].
  simpl. destruct (f ri d) as [rd|e] eqn:Hd; [|done].
  intros Ho. exists ri, rd. split; [done|]. split; [done|]. split; [|done].
  rewrite reduce_app, Hi. simpl. by rewrite Hd.
Qed.








(** ** Errors *)
















(** ** The shared context *)

Lemma contexts_app l1 l2 : contexts (l1 ++ l2) = contexts l1 ++ contexts l2.
Proof. apply omap_app. Qed.

Lemma runBody_write write k hf :
  actsOnHeap k hf ->
  actsOnHeap (runBody (writeThenResolve write) k) (fun h => hf (write h)).
Proof.
  intros Hk w. unfold writeThenResolve. simpl.
  destruct (Hk {| heap := write (heap w); calls := calls w |}) as [evs Hr].
  exists evs. unfold runs in *. simpl in *. rewrite Hr.
  by destruct (hf (write (heap w))) as [[v|e] h].
Qed.

Lemma callDirective_write location name resolver k source dargs context info args
    write hf :
  resolver source dargs context info args = writeThenResolve write ->
  actsOnHeap k hf ->
  actsOnHeap (callDirective location name resolver k source dargs context info args)
    (fun h => hf (write h)).
Proof.
  intros Hbody Hk w.
  destruct (runBody_write write k hf Hk
              (record (Enter (DirectiveHandler location name) context) w))
    as [evs Hr].
  eexists. apply callDirective_runs. rewrite Hbody. exact Hr.
Qed.

Lemma nest_write write location outerFirst base source context info args hf :
  (∀ name di, (name, di) ∈ outerFirst ->
     info_resolver di source (info_args di) context info args
     = writeThenResolve (write name source (info_args di) context info args)) ->
  actsOnHeap base hf ->
  actsOnHeap (nest location outerFirst base source context info args)
    (fun h => hf (writesOf write source context info args outerFirst h)).
Proof.
  revert hf. induction outerFirst as [|[name di] inner IH]; intros hf Hshape Hbase.
  - exact Hbase.
  - simpl. unfold writesOf. simpl.
    apply (callDirective_write location name (info_resolver di) _ source
             (info_args di) context info args
             (write name source (info_args di) context info args)
             (fun h => hf (writesOf write source context info args inner h))).
    + apply (Hshape name di). left.
    + apply IH; [|done]. intros n d Hin. apply (Hshape n d). by right.
Qed.

Lemma callResolver_actsOnHeap f source args context info :
  actsOnHeap (callResolver f source args context info) (f source args context info).
Proof.
  intros w.
  destruct (callResolver_runs f source args context info w) as (o & h & Hf & Hr).
  rewrite Hf. simpl. by eauto.
Qed.

Lemma discover_write engine resolverMap schema location variables ds dis write
    name di source context info args :
  (∀ name resolver source directiveArgs context info args,
     resolverMap !! name = Some resolver ->
     resolver source directiveArgs context info args
     = writeThenResolve (write name source directiveArgs context info args)) ->
  discover engine resolverMap schema location variables ds = Ok dis ->
  (name, di) ∈ reverse dis ->
  info_resolver di source (info_args di) context info args
  = writeThenResolve (write name source (info_args di) context info args).
Proof.
  intros Hall Hdis Hin. rewrite elem_of_reverse in Hin.
  destruct (discover_info _ _ _ _ _ _ _ _ _ Hdis Hin) as (d & _ & <- & Hd).
  apply getDirectiveInfo_resolver in Hd. by apply Hall.
Qed.

Lemma writesOf_app write source context info args l1 l2 h :
  writesOf write source context info args (l1 ++ l2) h
  = writesOf write source context info args l2
      (writesOf write source context info args l1 h).
Proof. unfold writesOf. apply fold_left_app. Qed.

Lemma installed_contexts engine resolverMap schema field field'
    source args context info w :
  unwired field ->
  installResolvers engine resolverMap schema field = Ok field' ->
  ∃ o h evs,
    runs (getFieldResolver engine field' source args context info) w o h evs
    ∧ Forall (fun c => c = context) (contexts evs).
Proof.
  intros Hun Hinst.
  apply (installed_invariant engine resolverMap schema
           (fun evs => Forall (fun c => c = context) (contexts evs)) field field');
    [done|done|done| | |].
  - intros l1 l2 H1 H2. rewrite contexts_app. by apply Forall_app.
  - intros e. split; simpl; [by apply Forall_singleton|done].
  - intros location name e _. split; simpl; [by apply Forall_singleton|done].
Qed.

(** C7.  The context value given to a call of a wired field is the one
    every handler and the base resolver are called with: all calls in
    the log carry that very value, a reference and not a copy.  The
    heap it points into is threaded through the chain: when the handlers
    write to the heap before they continue, the base resolver computes
    on the heap that holds all their writes, each made on top of those of
    the handlers entered earlier (usage site first, then declaration
    site, each from the last directive to the first).  The same holds
    from one field's call to the next: a second field called with the
    same context starts in the heap the first one left, and all its
    calls carry the same reference. *)
Theorem context_passed_by_reference engine resolverMap schema field field' :
  unwired field ->
  installResolvers engine resolverMap schema field = Ok field' ->
  (∀ source args context info w, ∃ o h evs,
     runs (getFieldResolver engine field' source args context info) w o h evs
     ∧ Forall (fun c => c = context) (contexts evs))
  ∧ (∀ write f source args context info node0 rest declared used,
       (∀ name resolver source directiveArgs context info args,
          resolverMap !! name = Some resolver ->
          resolver source directiveArgs context info args
          = writeThenResolve (write name source directiveArgs context info args)) ->
       getFieldResolver engine field = callResolver f ->
       fieldNodes info = node0 :: rest ->
       discover engine resolverMap schema FIELD_DEFINITION None
         (filterCustomDirectives (astNode_directives field)) = Ok declared ->
       discover engine resolverMap schema FIELD (Some (variableValues info))
         (filterCustomDirectives (node_directives node0)) = Ok used ->
       actsOnHeap (getFieldResolver engine field' source args context info)
         (fun h => f source args context info
                     (writesOf write source context info args
                        (reverse used ++ reverse declared) h)))
  ∧ (∀ other other' source args info source' args' info' context w,
       unwired other ->
       installResolvers engine resolverMap schema other = Ok other' ->
       ∃ o h evs o' h' evs',
         runs (getFieldResolver engine field' source args context info) w o h evs
         ∧ runs (getFieldResolver engine other' source' args' context info')
             {| heap := h; calls := calls w ++ evs |} o' h' evs'
         ∧ Forall (fun c => c = context) (contexts (evs ++ evs'))).
Proof.
  intros Hun Hinst. split; [|split].
  - intros source args context info w.
    by apply (installed_contexts engine resolverMap schema field field').
  - intros write f source args context info node0 rest declared used
      Hwrite Hbase Hnodes Hdecl Hused.
    destruct (installResolvers_spec _ _ _ _ _ Hinst) as (r & Hr & -> & Hget).
    pose proof (createFieldResolver_spec engine resolverMap schema
                  (setResolve r field) source args context info node0 rest Hnodes)
      as Hspec.
    rewrite Hused in Hspec. rewrite Hspec, Hget.
    pose proof (createFieldExecutionResolver_spec engine resolverMap schema field)
      as Hspec'.
    rewrite Hdecl in Hspec'. destruct Hspec' as (r' & Hr' & Hnest).
    assert (r' = r) as -> by congruence.
    rewrite Hnest, Hbase.
    intros w. rewrite writesOf_app.
    apply (nest_write write FIELD (reverse used) _ source context info args
             (fun h => f source args context info
                         (writesOf write source context info args
                            (reverse declared) h))).
    + intros name di Hin.
      eapply discover_write; [exact Hwrite|exact Hused|exact Hin].
    + apply (nest_write write FIELD_DEFINITION (reverse declared) _ source
               context info args (f source args context info)).
      * intros name di Hin.
        eapply discover_write; [exact Hwrite|exact Hdecl|exact Hin].
      * apply callResolver_actsOnHeap.
  - intros other other' source args info source' args' info' context w
      Hun' Hinst'.
    destruct (installed_contexts engine resolverMap schema field field'
                source args context info w Hun Hinst)
      as (o & h & evs & Hruns & Hctx).
    destruct (installed_contexts engine resolverMap schema other other'
                source' args' context info'
                {| heap := h; calls := calls w ++ evs |} Hun' Hinst')
      as (o' & h' & evs' & Hruns' & Hctx').
    exists o, h, evs, o', h', evs'. split; [done|]. split; [done|].
    rewrite contexts_app. by apply Forall_app.
Qed.

Lemma context_passed_by_reference_witness :
  ∃ o h evs,
    runs (getFieldResolver Readme.engine Readme.wiredSecretField
            (VRef Readme.personLoc) ∅ (VRef Readme.contextLoc) Readme.secretInfo)
      Readme.initialWorld o h evs
    ∧ Forall (fun c => c = VRef Readme.contextLoc) (contexts evs).
Proof.
  apply (proj1 (context_passed_by_reference Readme.engine Readme.directives
                  Readme.schema Readme.secretField Readme.wiredSecretField
                  (or_introl eq_refl) eq_refl)).
Defined.

(** ** Field nodes after the first *)


(** C10.  Usage-site discovery reads the directives of the first field
    node only.  Every usage-site call in the log of a wired field is made
    under the name of a custom directive of [info.fieldNodes[0]]; and as
    far as user code does not itself look at the later field nodes, two
    calls whose infos differ in the later nodes only do the same: a
    directive on a later node is neither checked nor composed, be it
    undeclared or without handler. *)
Theorem later_field_nodes_ignored engine resolverMap schema field field' :
  unwired field ->
  installResolvers engine resolverMap schema field = Ok field' ->
  (∀ source args context info node0 rest w,
     fieldNodes info = node0 :: rest ->
     ∃ o h evs,
       runs (getFieldResolver engine field' source args context info) w o h evs
       ∧ ∀ name c,
           Enter (DirectiveHandler FIELD name) c ∈ evs ->
           name ∈ map dir_name (filterCustomDirectives (node_directives node0)))
  ∧ (resolverIgnoresLaterNodes (getFieldResolver engine field) ->
     (∀ name resolver, resolverMap !! name = Some resolver ->
                       handlerIgnoresLaterNodes resolver) ->
     ∀ source args context info info' w,
       sameFirstNode info info' ->
       getFieldResolver engine field' source args context info w
       = getFieldResolver engine field' source args context info' w).
Proof.
  intros Hun Hinst.
  destruct (installResolvers_spec _ _ _ _ _ Hinst) as (r & Hr & -> & Hget).
  split.
  - intros source args context info node0 rest w Hnodes.
    pose proof (createFieldResolver_spec engine resolverMap schema
                  (setResolve r field) source args context info node0 rest Hnodes)
      as Hspec.
    set (P := fun evs : list Event =>
                ∀ name c,
                  Enter (DirectiveHandler FIELD name) c ∈ evs ->
                  name ∈ map dir_name
                             (filterCustomDirectives (node_directives node0))).
    assert (Hnil : P []).
    { intros name c Hin. by apply elem_of_nil in Hin. }
    assert (Happ : ∀ l1 l2, P l1 -> P l2 -> P (l1 ++ l2)).
    { intros l1 l2 H1 H2 name c Hin.
      apply elem_of_app in Hin as [Hin|Hin]; eauto. }
    destruct (discover _ _ _ _ _ _) as [dis|e] eqn:Hdis.
    + rewrite Hspec, Hget. apply nest_invariant; [done|done| |].
      * intros name e Hin.
        rewrite fmap_reverse, elem_of_reverse in Hin.
        rewrite (discover_names _ _ _ _ _ _ _ Hdis) in Hin.
        split; intros n c Hev; apply list_elem_of_singleton in Hev; by simplify_eq.
      * intros w'.
        apply (declared_invariant engine resolverMap schema P field r);
          [done|done|done|done| |].
        -- intros e. split; intros n c Hev;
             by apply list_elem_of_singleton in Hev.
        -- intros name e _. split; intros n c Hev;
             by apply list_elem_of_singleton in Hev.
    + rewrite Hspec. exists (Err e), (heap w), []. split; [apply throw_runs|done].
  - intros Hbase Hhandlers source args context info info' w
      (Hname & Hvars & Hhead).
    assert (Hsame : sameFirstNode info info') by done.
    assert (Hdecl : ∀ w', r source args context info w'
                          = r source args context info' w').
    { pose proof (createFieldExecutionResolver_spec engine resolverMap schema field)
        as Hspec.
      destruct (discover _ _ _ FIELD_DEFINITION _ _) as [dis|e] eqn:Hdis;
        [|congruence].
      destruct Hspec as (r' & Hr' & Hnest). assert (r' = r) as -> by congruence.
      intros w'. rewrite !Hnest. apply nest_ext.
      - intros name di Hin. rewrite elem_of_reverse in Hin.
        destruct (discover_info _ _ _ _ _ _ _ _ _ Hdis Hin) as (d & _ & _ & Hd).
        apply getDirectiveInfo_resolver in Hd. by apply (Hhandlers _ _ Hd).
      - intros w''. by apply Hbase. }
    destruct (fieldNodes info) as [|node0 rest] eqn:Hnodes;
      destruct (fieldNodes info') as [|node0' rest'] eqn:Hnodes';
      simpl in Hhead; try discriminate.
    + unfold createFieldResolver. by rewrite Hnodes, Hnodes'.
    + injection Hhead as <-.
      pose proof (createFieldResolver_spec engine resolverMap schema
                    (setResolve r field) source args context info node0 rest Hnodes)
        as Hspec.
      pose proof (createFieldResolver_spec engine resolverMap schema
                    (setResolve r field) source args context info' node0 rest' Hnodes')
        as Hspec'.
      rewrite <- Hvars in Hspec'.
      destruct (discover _ _ _ FIELD _ _) as [dis|e] eqn:Hdis.
      * rewrite Hspec, Hspec', Hget. apply nest_ext; [|done].
        intros name di Hin. rewrite elem_of_reverse in Hin.
        destruct (discover_info _ _ _ _ _ _ _ _ _ Hdis Hin) as (d & _ & _ & Hd).
        apply getDirectiveInfo_resolver in Hd. by apply (Hhandlers _ _ Hd).
      * by rewrite Hspec, Hspec'.
Qed.

Lemma readme_directives_ignore_info name resolver :
  Readme.directives !! name = Some resolver -> handlerIgnoresLaterNodes resolver.
Proof.
  intros Hlook source dargs context info info' args _.
  unfold Readme.directives in Hlook.
  repeat (apply lookup_insert_Some in Hlook as [[_ <-]|[_ Hlook]]; [done|]).
  by rewrite lookup_empty in Hlook.
Defined.

Lemma later_field_nodes_ignored_witness :
  getFieldResolver Readme.engine Readme.wiredSecretField
    (VRef Readme.personLoc) ∅ (VRef Readme.contextLoc) Readme.secretInfo
    Readme.initialWorld
  = getFieldResolver Readme.engine Readme.wiredSecretField
      (VRef Readme.personLoc) ∅ (VRef Readme.contextLoc) Readme.mergedInfo
      Readme.initialWorld.
Proof.
  apply (proj2 (later_field_nodes_ignored Readme.engine Readme.directives
                  Readme.schema Readme.secretField Readme.wiredSecretField
                  (or_introl eq_refl) eq_refl)).
  - intros source args context info info' w (Hname & _ & _).
    unfold getFieldResolver, callResolver. simpl. by rewrite Hname.
  - exact readme_directives_ignore_info.
  - repeat split.
Defined.

(** ** Registration overwrites *)

(** Assigning a resolver to a field and then another one leaves the
    second: the last write wins, and writing the same twice is writing
    it once. *)
Lemma assignResolve_overwrite fieldName f g fields :
  assignResolve fieldName g (assignResolve fieldName f fields)
  = assignResolve fieldName g fields.
Proof.
  unfold assignResolve. rewrite <- list_fmap_compose.
  apply list_fmap_ext. intros i [n fld] _. simpl.
  destruct (decide (n = fieldName)) as [Hn|Hn].
  - rewrite (bool_decide_eq_true_2 _ Hn). simpl.
    by rewrite (bool_decide_eq_true_2 _ Hn).
  - rewrite (bool_decide_eq_false_2 _ Hn). simpl.
    by rewrite (bool_decide_eq_false_2 _ Hn).
Qed.

Lemma assignInType_overwrite typeName fieldName f g schema :
  assignInType typeName fieldName g (assignInType typeName fieldName f schema)
  = assignInType typeName fieldName g schema.
Proof.
  unfold assignInType. simpl. f_equal.
  rewrite <- list_fmap_compose.
  apply list_fmap_ext. intros i [n t] _. simpl.
  destruct (decide (n = typeName)) as [Hn|Hn].
  - rewrite (bool_decide_eq_true_2 _ Hn). simpl.
    rewrite (bool_decide_eq_true_2 _ Hn). simpl.
    by rewrite assignResolve_overwrite.
  - rewrite (bool_decide_eq_false_2 _ Hn). simpl.
    by rewrite (bool_decide_eq_false_2 _ Hn).
Qed.

(** ** The README, run *)

(** A caller whose role is [USER]: [role] throws, [upper] lets the error
    pass, the base resolver is never called, and the caller gets the
    error [role] threw. *)
Example readme_secret_denied :
  getFieldResolver Readme.engine Readme.wiredSecretField
    (VRef Readme.personLoc) ∅ (VRef Readme.contextLoc) Readme.secretInfo
    Readme.userWorld
  = (Err (GraphQLError "Unauthorized" "E_ROLE"),
     {| heap := heap Readme.userWorld;
        calls :=
          [ Enter (DirectiveHandler FIELD "upper") (VRef Readme.contextLoc);
            Enter (DirectiveHandler FIELD_DEFINITION "role") (VRef Readme.contextLoc);
            Fail (DirectiveHandler FIELD_DEFINITION "role")
              (GraphQLError "Unauthorized" "E_ROLE");
            Fail (DirectiveHandler FIELD "upper")
              (GraphQLError "Unauthorized" "E_ROLE") ] |}).
Proof. vm_compute. reflexivity. Qed.

(** A handler that answers ["X"] in the place of [role]: the field is
    ["X"], and neither [whatever] nor the base resolver is called. *)
Example readme_secret_short_circuit :
  Readme.shortResolver (VRef Readme.personLoc) ∅ (VRef Readme.contextLoc)
    Readme.secretInfo Readme.initialWorld
  = (Ok (VStr "X"),
     {| heap := Readme.initialHeap;
        calls :=
          [ Enter (DirectiveHandler FIELD_DEFINITION "role")
              (VRef Readme.contextLoc) ] |}).
Proof. vm_compute. reflexivity. Qed.

(** Handlers that append their name to [context.trail]: after the call
    the caller finds every entry there, in the order of the calls. *)
Example readme_secret_trail :
  (heap (snd (getFieldResolver Readme.engine Readme.stampedSecretField
                (VRef Readme.personLoc) ∅ (VRef Readme.contextLoc)
                Readme.secretInfo Readme.initialWorld))
     !! Readme.contextLoc) ≫= (fun object => object !! "trail")
  = Some (VStr "upper;role;whatever;").
Proof. vm_compute. reflexivity. Qed.

(** * More of the code *)

(** ** The template tag *)

Lemma append_assoc_string (a b c : string) : (a +:+ b) +:+ c = a +:+ (b +:+ c).
Proof.
  induction a as [|x a IH]; [done|].
  change (String x ((a +:+ b) +:+ c) = String x (a +:+ (b +:+ c))).
  by rewrite IH.
Qed.

Lemma append_nil_r_string (a : string) : a +:+ "" = a.
Proof.
  induction a as [|x a IH]; [done|].
  change (String x (a +:+ "") = String x a). by rewrite IH.
Qed.

Lemma append_nil_l_string (a : string) : "" +:+ a = a.
Proof. done. Qed.

Lemma gqlReduce_interleave chunks variables index accumulator :
  gqlReduce chunks variables index accumulator
  = accumulator +:+ interleave chunks (drop index variables).
Proof.
  revert index accumulator.
  induction chunks as [|chunk rest IH]; intros index accumulator; simpl.
  - by rewrite append_nil_r_string.
  - rewrite IH. destruct (variables !! index) as [v|] eqn:Hv.
    + rewrite (drop_S _ _ _ Hv). simpl. by rewrite !append_assoc_string.
    + apply lookup_ge_None in Hv.
      rewrite (drop_ge variables index) by done.
      rewrite (drop_ge variables (S index)) by lia.
      simpl. by rewrite !append_assoc_string.
Qed.

Lemma interleave_app chunks1 chunks2 variables1 variables2 :
  length variables1 = length chunks1 ->
  interleave (chunks1 ++ chunks2) (variables1 ++ variables2)
  = interleave chunks1 variables1 +:+ interleave chunks2 variables2.
Proof.
  revert variables1.
  induction chunks1 as [|chunk rest IH]; intros [|v variables1] Hlen;
    simpl in *; try done.
  rewrite IH by lia. by rewrite !append_assoc_string.
Qed.

Lemma interleave_take chunks variables :
  interleave chunks (take (length chunks) variables) = interleave chunks variables.
Proof.
  revert variables.
  induction chunks as [|chunk rest IH]; intros [|v variables]; simpl; try done.
  by rewrite IH.
Qed.

(** X1.  For variables that print as [templateString] has it (among the
    numbers, the integers a number holds exactly), [gql] puts each chunk
    of the template in front of the variable of the same position,
    converted as a template literal converts it: chunks beyond the
    variables stand alone, variables beyond the chunks are dropped, and
    without variables the result is the chunks joined. *)
Theorem gql_interleaves chunks variables :
  Forall printsInDecimal variables ->
  gql chunks variables = interleave chunks variables
  ∧ gql chunks variables = gql chunks (take (length chunks) variables)
  ∧ gql chunks [] = foldr String.append "" chunks.
Proof.
  intros _.
  unfold gql. rewrite !gqlReduce_interleave, !append_nil_l_string, !drop_0.
  split; [done|]. split.
  - by rewrite interleave_take.
  - induction chunks as [|chunk rest IH]; simpl; [done|]. by rewrite IH.
Qed.

Lemma gql_interleaves_witness :
  gql ["{ get(id: "; ", limit: "; ") { name } }"]
    [VStr "abc"; VNum 10]
  = "{ get(id: abc, limit: 10) { name } }".
Proof.
  rewrite (proj1 (gql_interleaves
                    ["{ get(id: "; ", limit: "; ") { name } }"]
                    [VStr "abc"; VNum 10]
                    ltac:(repeat constructor; vm_compute; discriminate))).
  vm_compute. reflexivity.
Defined.

(** X2.  A template cut in two, with as many variables as chunks in the
    first part, is tagged part by part. *)
Theorem gql_app chunks1 chunks2 variables1 variables2 :
  length variables1 = length chunks1 ->
  gql (chunks1 ++ chunks2) (variables1 ++ variables2)
  = gql chunks1 variables1 +:+ gql chunks2 variables2.
Proof.
  intros Hlen. unfold gql.
  rewrite !gqlReduce_interleave, !append_nil_l_string, !drop_0.
  by apply interleave_app.
Qed.

Lemma gql_app_witness :
  gql (["type Query { "] ++ [": Int! }"]) ([VStr "countPeople"] ++ [])
  = gql ["type Query { "] [VStr "countPeople"] +:+ gql [": Int! }"] [].
Proof. apply (gql_app ["type Query { "] [": Int! }"] [VStr "countPeople"] []). reflexivity. Defined.

(** ** Binding the resolver table, in general *)

Lemma find_key_map {A} (f : string * A -> string * A) key (l : list (string * A)) :
  (∀ p, fst (f p) = fst p) ->
  List.find (fun p => bool_decide (fst p = key)) (map f l)
  = f <$> List.find (fun p => bool_decide (fst p = key)) l.
Proof.
  intros Hf. induction l as [|p l IH]; simpl; [done|].
  rewrite Hf. by destruct (bool_decide (fst p = key)).
Qed.

Lemma find_key_Some {A} key (l : list (string * A)) p :
  List.find (fun p => bool_decide (fst p = key)) l = Some p ->
  fst p = key ∧ p ∈ l.
Proof.
  intros Hfind. apply find_some in Hfind as [Hin Hkey].
  split; [by apply bool_decide_eq_true in Hkey|by apply list_elem_of_In].
Qed.

Lemma setResolve_setResolve r r' field :
  setResolve r (setResolve r' field) = setResolve r field.
Proof. done. Qed.

Lemma withLast_cons fn fns field :
  withLast (fn :: fns) field = withLast fns (setResolve (callResolver fn) field).
Proof.
  unfold withLast. rewrite last_cons. by destruct (last fns).
Qed.

Lemma withLast_app fns1 fns2 field :
  withLast (fns1 ++ fns2) field = withLast fns2 (withLast fns1 field).
Proof.
  revert field. induction fns1 as [|fn fns1 IH]; intros field; [done|].
  simpl. by rewrite !withLast_cons, IH.
Qed.

Lemma getType_assignInType typeName' fieldName fn schema typeName :
  getType (assignInType typeName' fieldName fn schema) typeName
  = (fun type => snd (assignedType typeName' fieldName fn (typeName, type)))
    <$> getType schema typeName.
Proof.
  unfold getType, assignInType. simpl.
  rewrite (find_key_map (assignedType typeName' fieldName fn)).
  - destruct (List.find _ (typeMap schema)) as [[n t]|] eqn:Hfind; [|done].
    apply find_key_Some in Hfind as [Hn _]. simpl in Hn. by subst n.
  - intros p. unfold assignedType. by case_bool_decide.
Qed.

Lemma fieldOf_assignInType typeName' fieldName' fn schema typeName fieldName :
  fieldOf (assignInType typeName' fieldName' fn schema) typeName fieldName
  = (fun field =>
       if bool_decide (typeName' = typeName) && bool_decide (fieldName' = fieldName)
       then setResolve (callResolver fn) field else field)
    <$> fieldOf schema typeName fieldName.
Proof.
  unfold fieldOf. rewrite getType_assignInType.
  destruct (getType schema typeName) as [type|]; [|done]. simpl.
  unfold assignedType. simpl.
  destruct (decide (typeName = typeName')) as [->|Hne].
  - rewrite !bool_decide_eq_true_2 by done. simpl. unfold assignResolve.
    rewrite (find_key_map
               (fun p => if bool_decide (fst p = fieldName')
                         then (fst p, setResolve (callResolver fn) (snd p))
                         else p)).
    + destruct (List.find _ (type_fields type)) as [[k f]|] eqn:Hfind; [|done].
      apply find_key_Some in Hfind as [Hk _]. simpl in Hk. subst k. simpl.
      destruct (decide (fieldName = fieldName')) as [->|Hne'].
      * by rewrite !bool_decide_eq_true_2.
      * rewrite !bool_decide_eq_false_2; [done| |]; congruence.
    + intros p. by case_bool_decide.
  - rewrite (bool_decide_eq_false_2 (typeName = typeName')) by done.
    rewrite (bool_decide_eq_false_2 (typeName' = typeName)) by congruence.
    simpl. by destruct (snd <$> List.find _ (type_fields type)).
Qed.

Lemma fieldOf_bindFields typeName' entries schema fieldsNames typeName fieldName
    field :
  fieldOf schema typeName fieldName = Some field ->
  (typeName' = typeName -> fieldName ∈ fieldsNames) ->
  fieldOf (bindFields typeName' entries schema fieldsNames) typeName fieldName
  = Some (withLast (if bool_decide (typeName' = typeName)
                    then registeredIn fieldName entries else []) field).
Proof.
  revert schema field.
  induction entries as [|[fieldName' fn] rest IH]; intros schema field Hfield Hin.
  - simpl. by destruct (bool_decide _).
  - simpl. unfold registeredIn. simpl.
    destruct (decide (typeName' = typeName)) as [Ht|Ht].
    + rewrite (bool_decide_eq_true_2 _ Ht).
      destruct (decide (fieldName' = fieldName)) as [->|Hf].
      * rewrite (bool_decide_eq_true_2 (fieldName ∈ fieldsNames)) by auto.
        rewrite (bool_decide_eq_true_2 (fieldName = fieldName)) by done.
        simpl. rewrite withLast_cons.
        rewrite (IH _ (setResolve (callResolver fn) field)); [|..|done].
        -- by rewrite (bool_decide_eq_true_2 _ Ht).
        -- rewrite fieldOf_assignInType, Hfield. simpl.
           by rewrite !bool_decide_eq_true_2.
      * rewrite (bool_decide_eq_false_2 (fieldName' = fieldName)) by done.
        rewrite (IH _ field); [|..|done].
        -- by rewrite (bool_decide_eq_true_2 _ Ht).
        -- destruct (bool_decide (fieldName' ∈ fieldsNames)); [|done].
           rewrite fieldOf_assignInType, Hfield. simpl.
           rewrite (bool_decide_eq_false_2 (fieldName' = fieldName)) by done.
           by rewrite andb_false_r.
    + rewrite (bool_decide_eq_false_2 _ Ht).
      rewrite (IH _ field); [|..|done].
      * by rewrite (bool_decide_eq_false_2 _ Ht).
      * destruct (bool_decide (fieldName' ∈ fieldsNames)); [|done].
        rewrite fieldOf_assignInType, Hfield. simpl.
        by rewrite (bool_decide_eq_false_2 _ Ht).
Qed.

Lemma fieldOf_bindTypes resolverMap schema schema' typeName fieldName field :
  bindTypes resolverMap schema = Ok schema' ->
  fieldOf schema typeName fieldName = Some field ->
  fieldOf schema' typeName fieldName
  = Some (withLast (registered resolverMap typeName fieldName) field).
Proof.
  revert schema field.
  induction resolverMap as [|[typeName' entries] rest IH];
    intros schema field Hbind Hfield; simpl in *.
  - by injection Hbind as <-.
  - destruct (getType schema typeName') as [type|] eqn:Htype; [|done].
    destruct (getFields type) as [fields|] eqn:Hfields; [|done].
    rewrite withLast_app.
    apply (IH _ _ Hbind).
    apply fieldOf_bindFields; [done|].
    intros ->. unfold fieldOf in Hfield. rewrite Htype in Hfield.
    destruct (List.find _ (type_fields type)) as [[k f]|] eqn:Hfind; [|done].
    apply find_key_Some in Hfind as [Hk Hin]. simpl in Hk. subst k.
    unfold getFields in Hfields.
    assert (fields = type_fields type) as ->
      by (destruct (type_kind type); congruence).
    apply list_elem_of_fmap. by exists (fieldName, f).
Qed.

Lemma getFields_kind type type' :
  type_kind type = type_kind type' ->
  is_Some (getFields type) ↔ is_Some (getFields type').
Proof.
  unfold getFields. intros ->.
  destruct (type_kind type'); split; intros [x Hx]; try done; by eauto.
Qed.

Lemma assignedType_kind typeName' fieldName fn p :
  type_kind (snd (assignedType typeName' fieldName fn p)) = type_kind (snd p).
Proof. unfold assignedType. by case_bool_decide. Qed.

Lemma hasFields_assignInType typeName' fieldName fn schema typeName :
  hasFields (assignInType typeName' fieldName fn schema) typeName
  ↔ hasFields schema typeName.
Proof.
  unfold hasFields. rewrite getType_assignInType.
  destruct (getType schema typeName) as [type|]; simpl.
  - split.
    + intros (t & Ht & Hsome). exists type. split; [done|].
      injection Ht as Ht. subst t.
      eapply getFields_kind; [|exact Hsome].
      symmetry. apply (assignedType_kind typeName' fieldName fn (typeName, type)).
    + intros (t & Ht & Hsome). injection Ht as Ht. subst t.
      eexists. split; [done|].
      eapply getFields_kind; [|exact Hsome].
      apply (assignedType_kind typeName' fieldName fn (typeName, type)).
  - split; intros (t & Ht & _); done.
Qed.

Lemma hasFields_bindFields typeName' entries schema fieldsNames typeName :
  hasFields (bindFields typeName' entries schema fieldsNames) typeName
  ↔ hasFields schema typeName.
Proof.
  revert schema. induction entries as [|[fieldName fn] rest IH]; intros schema.
  - done.
  - simpl. rewrite IH.
    destruct (bool_decide (fieldName ∈ fieldsNames)); [|done].
    apply hasFields_assignInType.
Qed.

Lemma bindTypes_succeeds resolverMap schema :
  (∃ schema', bindTypes resolverMap schema = Ok schema')
  ↔ ∀ typeName entries,
      (typeName, entries) ∈ resolverMap -> hasFields schema typeName.
Proof.
  revert schema.
  induction resolverMap as [|[typeName' entries'] rest IH]; intros schema; simpl.
  - split; [|by eauto]. intros _ ?? Hin. by apply elem_of_nil in Hin.
  - destruct (getType schema typeName') as [type|] eqn:Htype.
    + destruct (getFields type) as [fields|] eqn:Hfields.
      * rewrite IH. split.
        -- intros Hrest typeName entries Hin.
           apply elem_of_cons in Hin as [[= -> ->]|Hin].
           ++ exists type. by rewrite Hfields.
           ++ eapply hasFields_bindFields. by eapply Hrest.
        -- intros Hall typeName entries Hin.
           apply hasFields_bindFields. eapply Hall. by right.
      * split; [by intros [? ?]|]. intros Hall.
        destruct (Hall typeName' entries') as (t & Ht & Hsome); [left|].
        rewrite Htype in Ht. injection Ht as <-. rewrite Hfields in Hsome.
        by destruct Hsome.
    + split; [by intros [? ?]|]. intros Hall.
      destruct (Hall typeName' entries') as (t & Ht & _); [left|].
      by rewrite Htype in Ht.
Qed.

Lemma eraseSchema_assignInType typeName fieldName fn schema :
  eraseSchema (assignInType typeName fieldName fn schema) = eraseSchema schema.
Proof.
  unfold eraseSchema, assignInType. simpl. f_equal.
  rewrite <- list_fmap_compose. apply list_fmap_ext. intros i [n t] _. simpl.
  case_bool_decide; [|done]. simpl. f_equal. unfold eraseType. simpl. f_equal.
  unfold assignResolve. rewrite <- list_fmap_compose.
  apply list_fmap_ext. intros j [k f] _. simpl. by case_bool_decide.
Qed.

Lemma eraseSchema_bindFields typeName entries schema fieldsNames :
  eraseSchema (bindFields typeName entries schema fieldsNames) = eraseSchema schema.
Proof.
  revert schema. induction entries as [|[fieldName fn] rest IH]; intros schema.
  - done.
  - simpl. rewrite IH.
    destruct (bool_decide (fieldName ∈ fieldsNames)); [|done].
    apply eraseSchema_assignInType.
Qed.

Lemma eraseSchema_bindTypes resolverMap schema schema' :
  bindTypes resolverMap schema = Ok schema' ->
  eraseSchema schema' = eraseSchema schema.
Proof.
  revert schema. induction resolverMap as [|[typeName entries] rest IH];
    intros schema Hbind; simpl in Hbind.
  - by injection Hbind as <-.
  - destruct (getType schema typeName) as [type|]; [|done].
    destruct (getFields type) as [fields|]; [|done].
    rewrite (IH _ Hbind). apply eraseSchema_bindFields.
Qed.

Lemma unwired_assignInType typeName fieldName fn schema :
  allFields unwired schema ->
  allFields unwired (assignInType typeName fieldName fn schema).
Proof.
  intros Hall T type F field Htype Hfield.
  unfold assignInType in Htype. simpl in Htype.
  apply list_elem_of_fmap in Htype as ([n t] & Heq & Hin). simpl in Heq.
  case_bool_decide.
  - injection Heq as -> ->. simpl in Hfield. unfold assignResolve in Hfield.
    apply list_elem_of_fmap in Hfield as ([k f] & Heq & Hin'). simpl in Heq.
    case_bool_decide.
    + injection Heq as -> ->. right. by eexists.
    + injection Heq as -> ->. by eapply (Hall n t).
  - injection Heq as -> ->. by eapply (Hall n t).
Qed.

Lemma unwired_bindFields typeName entries schema fieldsNames :
  allFields unwired schema ->
  allFields unwired (bindFields typeName entries schema fieldsNames).
Proof.
  revert schema. induction entries as [|[fieldName fn] rest IH]; intros schema Hall.
  - done.
  - simpl. apply IH.
    destruct (bool_decide (fieldName ∈ fieldsNames)); [|done].
    by apply unwired_assignInType.
Qed.

Lemma unwired_bindTypes resolverMap schema schema' :
  bindTypes resolverMap schema = Ok schema' ->
  allFields unwired schema -> allFields unwired schema'.
Proof.
  revert schema. induction resolverMap as [|[typeName entries] rest IH];
    intros schema Hbind Hall; simpl in Hbind.
  - by injection Hbind as <-.
  - destruct (getType schema typeName) as [type|]; [|done].
    destruct (getFields type) as [fields|]; [|done].
    apply (IH _ Hbind). by apply unwired_bindFields.
Qed.

(** ** Wiring a whole schema *)

Lemma forEachFieldOf_Forall2 fn fields fields' :
  forEachFieldOf fn fields = Ok fields' ->
  Forall2 (fun q q' => fst q' = fst q ∧ fn (snd q) = Ok (snd q')) fields fields'.
Proof.
  revert fields'. induction fields as [|[k f] fields IH]; intros fields'; simpl.
  - intros [= <-]. constructor.
  - destruct (fn f) as [f'|e] eqn:Hf; [|done].
    destruct (forEachFieldOf fn fields) as [rest|e]; [|done].
    intros [= <-]. constructor; [split; [done|exact Hf]|by apply IH].
Qed.

Lemma forEachFieldOf_Err fn fields e :
  forEachFieldOf fn fields = Err e ->
  ∃ k f, (k, f) ∈ fields ∧ fn f = Err e.
Proof.
  induction fields as [|[k f] fields IH]; simpl; [done|].
  destruct (fn f) as [f'|e0] eqn:Hf.
  - destruct (forEachFieldOf fn fields) as [rest|e1]; [done|].
    intros [= ->]. destruct (IH eq_refl) as (k' & f0 & Hin & Hfn).
    exists k', f0. split; [by right|done].
  - intros [= ->]. exists k, f. split; [left|done].
Qed.

Lemma forEachFieldOf_Ok fn fields :
  (∀ k f, (k, f) ∈ fields -> ∃ f', fn f = Ok f') ->
  ∃ fields', forEachFieldOf fn fields = Ok fields'.
Proof.
  intros Hall. destruct (forEachFieldOf fn fields) as [fields'|e] eqn:Hrun;
    [by eauto|].
  apply forEachFieldOf_Err in Hrun as (k & f & Hin & Hfn).
  destruct (Hall k f Hin) as [f' Hf']. congruence.
Qed.

Lemma forEachType_Forall2 engine resolverMap schema types types' :
  forEachType (installResolvers engine resolverMap schema) types = Ok types' ->
  Forall2 (wiredType engine resolverMap schema) types types'.
Proof.
  revert types'. induction types as [|[n t] types IH]; intros types'; simpl.
  - intros [= <-]. constructor.
  - fold (visited t).
    destruct (visited t) eqn:Hvis.
    + destruct (forEachFieldOf _ (type_fields t)) as [fields'|e] eqn:Hfields;
        [|done].
      destruct (forEachType _ types) as [rest|e]; [|done].
      intros [= <-]. constructor; [|by apply IH].
      split; [done|]. simpl. rewrite Hvis. simpl.
      split; [done|]. split; [done|]. by apply forEachFieldOf_Forall2.
    + destruct (forEachType _ types) as [rest|e]; [|done].
      intros [= <-]. constructor; [|by apply IH].
      split; [done|]. simpl. by rewrite Hvis.
Qed.

Lemma forEachType_Err fn types e :
  forEachType fn types = Err e ->
  ∃ n t k f,
    (n, t) ∈ types ∧ visited t = true ∧ (k, f) ∈ type_fields t ∧ fn f = Err e.
Proof.
  induction types as [|[n t] types IH]; simpl; [done|].
  fold (visited t). destruct (visited t) eqn:Hvis.
  - destruct (forEachFieldOf fn (type_fields t)) as [fields'|e0] eqn:Hfields.
    + destruct (forEachType fn types) as [rest|e1]; [done|].
      intros [= ->]. destruct (IH eq_refl) as (n' & t' & k & f & Hin & Hv & Hf & Hfn).
      exists n', t', k, f. split; [by right|done].
    + intros [= ->]. apply forEachFieldOf_Err in Hfields as (k & f & Hin & Hfn).
      exists n, t, k, f. split; [left|done].
  - destruct (forEachType fn types) as [rest|e1]; [done|].
    intros [= ->]. destruct (IH eq_refl) as (n' & t' & k & f & Hin & Hv & Hf & Hfn).
    exists n', t', k, f. split; [by right|done].
Qed.

Lemma discover_Err engine resolverMap schema location variables ds e :
  discover engine resolverMap schema location variables ds = Err e ->
  ∃ d, d ∈ ds ∧
       getDirectiveInfo engine d resolverMap schema location variables = Err e.
Proof.
  induction ds as [|d ds IH]; simpl; [done|].
  destruct (getDirectiveInfo engine d _ _ _ _) as [di|e0] eqn:Hd.
  - destruct (discover _ _ _ _ _ ds) as [rest|e1]; [done|].
    intros [= ->]. destruct (IH eq_refl) as (d' & Hin & Hd').
    exists d'. split; [by right|done].
  - intros [= ->]. exists d. split; [left|done].
Qed.

Lemma installResolvers_outcome engine resolverMap schema field :
  match discover engine resolverMap schema FIELD_DEFINITION None
          (filterCustomDirectives (astNode_directives field)) with
  | Ok _ => ∃ field', installResolvers engine resolverMap schema field = Ok field'
  | Err e => installResolvers engine resolverMap schema field = Err e
  end.
Proof.
  unfold installResolvers.
  pose proof (createFieldExecutionResolver_spec engine resolverMap schema field)
    as Hspec.
  destruct (discover _ _ _ _ _ _) as [dis|e].
  - destruct Hspec as (r & -> & _). by eauto.
  - by rewrite Hspec.
Qed.

Lemma installResolvers_erase engine resolverMap schema field field' :
  installResolvers engine resolverMap schema field = Ok field' ->
  eraseField field' = eraseField field.
Proof.
  unfold installResolvers.
  destruct (createFieldExecutionResolver _ _ _ _) as [r|e]; [|done].
  by intros [= <-].
Qed.

Lemma Forall2_find_key {A B} (R : A -> B -> Prop) key
    (l : list (string * A)) (l' : list (string * B)) :
  Forall2 (fun p p' => fst p' = fst p ∧ R (snd p) (snd p')) l l' ->
  match List.find (fun p => bool_decide (fst p = key)) l with
  | Some p =>
      ∃ b, List.find (fun p => bool_decide (fst p = key)) l' = Some (fst p, b)
           ∧ R (snd p) b
  | None => List.find (fun p => bool_decide (fst p = key)) l' = None
  end.
Proof.
  induction 1 as [|[k a] [k' b] l l' [Hk HR] _ IH]; simpl; [done|].
  simpl in Hk. subst k'.
  destruct (bool_decide (k = key)); [|exact IH].
  exists b. by split.
Qed.

Lemma bindTypes_Err resolverMap schema e :
  bindTypes resolverMap schema = Err e -> ∃ message, e = TypeError message.
Proof.
  revert schema. induction resolverMap as [|[typeName entries] rest IH];
    intros schema; simpl; [done|].
  destruct (getType schema typeName) as [type|]; [|intros [= <-]; by eauto].
  destruct (getFields type) as [fields|]; [|intros [= <-]; by eauto].
  apply IH.
Qed.

(** X3.  After [buildSchemaWithResolvers] (no directive table) every
    field of the schema has as resolver the function the table registers
    for its type and field name, the last one if the table is read as
    holding several, and is as the parser left it if the table has none
    for it. *)
Theorem registered_resolver_is_bound engine resolverMap schemaString schema
    schema' typeName fieldName field :
  buildSchema engine schemaString = Ok schema ->
  buildSchemaWithResolvers engine resolverMap schemaString None = Ok schema' ->
  fieldOf schema typeName fieldName = Some field ->
  fieldOf schema' typeName fieldName
  = Some (withLast (registered resolverMap typeName fieldName) field).
Proof.
  unfold buildSchemaWithResolvers. intros -> Hbind Hfield.
  destruct (bindTypes resolverMap schema) as [bound|e] eqn:Hb; [|done].
  injection Hbind as <-. by eapply fieldOf_bindTypes.
Qed.

Lemma registered_resolver_is_bound_witness :
  ∃ schema',
    buildSchemaWithResolvers Readme.engine Readme.handlers "" None = Ok schema'
    ∧ fieldOf schema' "Person" "fullname"
      = Some (setResolve (callResolver Readme.fullname)
                (snd (Readme.plainField "fullname")))
    ∧ fieldOf schema' "Person" "name" = Some (snd (Readme.plainField "name")).
Proof.
  eexists. split; [reflexivity|]. split.
  - apply (registered_resolver_is_bound Readme.engine Readme.handlers ""
             Readme.schema _ "Person" "fullname"
             (snd (Readme.plainField "fullname")));
      reflexivity.
  - apply (registered_resolver_is_bound Readme.engine Readme.handlers ""
             Readme.schema _ "Person" "name" (snd (Readme.plainField "name")));
      reflexivity.
Defined.

(** X4.  Binding the table succeeds exactly when every type name of the
    table names a type of the schema that has fields (an object, interface
    or input object type); field names are never a reason to fail.  When a
    type name does not, [buildSchemaWithResolvers] throws a [TypeError],
    with or without a directive table. *)
Theorem binding_succeeds_iff engine resolverMap schemaString schema :
  buildSchema engine schemaString = Ok schema ->
  ((∃ schema', buildSchemaWithResolvers engine resolverMap schemaString None
               = Ok schema')
   ↔ ∀ typeName entries,
       (typeName, entries) ∈ resolverMap -> hasFields schema typeName)
  ∧ (∀ typeName entries directives_,
       (typeName, entries) ∈ resolverMap ->
       ¬ hasFields schema typeName ->
       ∃ message,
         buildSchemaWithResolvers engine resolverMap schemaString directives_
         = Err (TypeError message)).
Proof.
  intros Hbuild. unfold buildSchemaWithResolvers. rewrite Hbuild. split.
  - rewrite <- bindTypes_succeeds.
    destruct (bindTypes resolverMap schema) as [bound|e]; split;
      intros [s' Hs']; by eauto.
  - intros typeName entries directives_ Hin Hnot.
    destruct (bindTypes resolverMap schema) as [bound|e] eqn:Hb.
    + exfalso. apply Hnot.
      eapply (proj1 (bindTypes_succeeds resolverMap schema)); by eauto.
    + apply bindTypes_Err in Hb as [message ->]. by eauto.
Qed.

Lemma binding_succeeds_iff_witness :
  ∃ message,
    buildSchemaWithResolvers Readme.engine
      [("Person", [("nickname", Readme.get)]); ("Address", [])] ""
      (Some Readme.directives)
    = Err (TypeError message).
Proof.
  apply (proj2 (binding_succeeds_iff Readme.engine
                  [("Person", [("nickname", Readme.get)]); ("Address", [])] ""
                  Readme.schema eq_refl)
           "Address" [] (Some Readme.directives)).
  - right. left.
  - intros (type & Htype & _). discriminate Htype.
Defined.

(** X5.  Binding the table changes resolvers and nothing else: the
    directive declarations, the types with their names and kinds, the
    fields with their names and declared directives stay as the parser
    gave them, in the same order; and if no field held a composed chain
    before, none does afterwards: every field holds a registered function
    or nothing. *)
Theorem binding_keeps_the_schema engine resolverMap schemaString schema schema' :
  buildSchema engine schemaString = Ok schema ->
  buildSchemaWithResolvers engine resolverMap schemaString None = Ok schema' ->
  eraseSchema schema' = eraseSchema schema
  ∧ (allFields unwired schema -> allFields unwired schema').
Proof.
  unfold buildSchemaWithResolvers. intros -> Hbind.
  destruct (bindTypes resolverMap schema) as [bound|e] eqn:Hb; [|done].
  injection Hbind as <-. split.
  - by eapply eraseSchema_bindTypes.
  - by eapply unwired_bindTypes.
Qed.

Lemma binding_keeps_the_schema_witness :
  ∃ schema',
    buildSchemaWithResolvers Readme.engine Readme.handlers "" None = Ok schema'
    ∧ eraseSchema schema' = eraseSchema Readme.schema.
Proof.
  eexists. split; [reflexivity|].
  apply (binding_keeps_the_schema Readme.engine Readme.handlers "" Readme.schema _
           eq_refl eq_refl).
Defined.

Lemma wiredType_erase engine resolverMap schema types types' :
  Forall2 (wiredType engine resolverMap schema) types types' ->
  map (fun p => (fst p, eraseType (snd p))) types'
  = map (fun p => (fst p, eraseType (snd p))) types.
Proof.
  induction 1 as [|[n t] [n' t'] types types' [Hn Ht] _ IH]; simpl; [done|].
  simpl in *. subst n'. rewrite IH. f_equal. f_equal.
  destruct (visited t); [|by subst t'].
  destruct Ht as (Hname & Hkind & Hfields).
  unfold eraseType. rewrite Hname, Hkind. f_equal.
  clear -Hfields. induction Hfields as [|[k f] [k' f'] l l' [Hk Hf] _ IH];
    simpl; [done|].
  simpl in *. subst k'. rewrite IH.
  by rewrite (installResolvers_erase _ _ _ _ _ Hf).
Qed.

(** X6.  When [addDirectiveResolveFunctionsToSchema] succeeds, the schema
    it leaves has the same directive declarations and the same types in
    the same order; a type that is an object type with a name not
    starting with two underscores has each of its fields replaced by that
    field wired (the two resolvers installed one over the other), and
    every other type (interface, input object, scalar, introspection) is
    exactly as it was.  Nothing but resolvers has changed. *)
Theorem wiring_visits_object_types engine resolverMap schema schema' :
  addDirectiveResolveFunctionsToSchema engine schema resolverMap = Ok schema' ->
  directives schema' = directives schema
  ∧ Forall2 (wiredType engine resolverMap schema) (typeMap schema) (typeMap schema')
  ∧ eraseSchema schema' = eraseSchema schema.
Proof.
  unfold addDirectiveResolveFunctionsToSchema, forEachField.
  destruct (forEachType _ (typeMap schema)) as [types'|e] eqn:Htypes; [|done].
  intros [= <-]. simpl. split; [done|].
  apply forEachType_Forall2 in Htypes. split; [done|].
  unfold eraseSchema. simpl. f_equal. by eapply wiredType_erase.
Qed.

Lemma wiring_visits_object_types_witness :
  ∃ schema',
    addDirectiveResolveFunctionsToSchema Readme.engine Readme.schema
      Readme.directives = Ok schema'
    ∧ directives schema' = directives Readme.schema
    ∧ Forall2 (wiredType Readme.engine Readme.directives Readme.schema)
        (typeMap Readme.schema) (typeMap schema')
    ∧ eraseSchema schema' = eraseSchema Readme.schema.
Proof.
  eexists. split; [reflexivity|].
  apply (wiring_visits_object_types Readme.engine Readme.directives Readme.schema).
  reflexivity.
Defined.

(** X7.  [addDirectiveResolveFunctionsToSchema] succeeds exactly when the
    custom directives of every field it visits all pass discovery at
    [FIELD_DEFINITION]; when it throws, the error is the one discovery
    gave for a directive of a visited field.  Directives on the fields of
    types it does not visit are never looked at. *)
Theorem wiring_succeeds_iff engine resolverMap schema :
  ((∃ schema',
      addDirectiveResolveFunctionsToSchema engine schema resolverMap = Ok schema')
   ↔ ∀ typeName type fieldName field,
       (typeName, type) ∈ typeMap schema -> visited type = true ->
       (fieldName, field) ∈ type_fields type ->
       ∃ discovered,
         discover engine resolverMap schema FIELD_DEFINITION None
           (filterCustomDirectives (astNode_directives field)) = Ok discovered)
  ∧ (∀ e,
       addDirectiveResolveFunctionsToSchema engine schema resolverMap = Err e ->
       ∃ typeName type fieldName field d,
         (typeName, type) ∈ typeMap schema ∧ visited type = true ∧
         (fieldName, field) ∈ type_fields type ∧
         d ∈ filterCustomDirectives (astNode_directives field) ∧
         getDirectiveInfo engine d resolverMap schema FIELD_DEFINITION None = Err e).
Proof.
  assert (Herr : ∀ e,
            addDirectiveResolveFunctionsToSchema engine schema resolverMap = Err e ->
            ∃ typeName type fieldName field,
              (typeName, type) ∈ typeMap schema ∧ visited type = true ∧
              (fieldName, field) ∈ type_fields type ∧
              discover engine resolverMap schema FIELD_DEFINITION None
                (filterCustomDirectives (astNode_directives field)) = Err e).
  { intros e. unfold addDirectiveResolveFunctionsToSchema, forEachField.
    destruct (forEachType _ (typeMap schema)) as [types'|e'] eqn:Htypes; [done|].
    intros [= ->].
    apply forEachType_Err in Htypes as (n & t & k & f & Hin & Hvis & Hf & Hfn).
    exists n, t, k, f. split; [done|]. split; [done|]. split; [done|].
    pose proof (installResolvers_outcome engine resolverMap schema f) as Hout.
    destruct (discover _ _ _ _ _ _) as [dis|e0].
    - destruct Hout as [f' Hf']. congruence.
    - congruence. }
  split.
  - split.
    + intros [schema' Hok] typeName type fieldName field Htype Hvis Hfield.
      unfold addDirectiveResolveFunctionsToSchema, forEachField in Hok.
      destruct (forEachType _ (typeMap schema)) as [types'|e0] eqn:Htypes;
        [|done].
      clear Hok. pose proof (forEachType_Forall2 _ _ _ _ _ Htypes) as Hall.
      pose proof (installResolvers_outcome engine resolverMap schema field) as Hout.
      destruct (discover _ _ _ _ _ _) as [dis|e] eqn:Hdis; [by eauto|].
      exfalso.
      apply list_elem_of_lookup in Htype as [i Hi].
      destruct (Forall2_lookup_l _ _ _ _ _ Hall Hi) as ([n' t'] & _ & _ & Ht).
      simpl in Ht. rewrite Hvis in Ht. destruct Ht as (_ & _ & Hfields).
      apply list_elem_of_lookup in Hfield as [j Hj].
      destruct (Forall2_lookup_l _ _ _ _ _ Hfields Hj) as ([k' f'] & _ & _ & Hf).
      simpl in Hf. congruence.
    + intros Hall.
      destruct (addDirectiveResolveFunctionsToSchema engine schema resolverMap)
        as [schema'|e] eqn:Hrun; [by eauto|].
      destruct (Herr e eq_refl) as (n & t & k & f & Hin & Hvis & Hf & Hdis).
      destruct (Hall n t k f Hin Hvis Hf) as [dis Hok]. congruence.
  - intros e Hrun.
    destruct (Herr e Hrun) as (n & t & k & f & Hin & Hvis & Hf & Hdis).
    apply discover_Err in Hdis as (d & Hd & Hinfo).
    by exists n, t, k, f, d.
Qed.

Lemma wiring_succeeds_iff_witness :
  ∃ typeName type fieldName field d,
    (typeName, type) ∈ typeMap Readme.schema ∧ visited type = true ∧
    (fieldName, field) ∈ type_fields type ∧
    d ∈ filterCustomDirectives (astNode_directives field) ∧
    getDirectiveInfo Readme.engine d ∅ Readme.schema FIELD_DEFINITION None
    = Err (MissingDirectiveHandler "whatever").
Proof.
  apply (proj2 (wiring_succeeds_iff Readme.engine ∅ Readme.schema)
           (MissingDirectiveHandler "whatever")).
  reflexivity.
Defined.

Lemma visited_assignedType typeName' fieldName fn p :
  visited (snd (assignedType typeName' fieldName fn p)) = visited (snd p).
Proof. unfold assignedType. by case_bool_decide. Qed.

Lemma visited_bindFields typeName' entries schema fieldsNames typeName type :
  getType schema typeName = Some type ->
  ∃ type', getType (bindFields typeName' entries schema fieldsNames) typeName
           = Some type'
           ∧ visited type' = visited type.
Proof.
  revert schema type. induction entries as [|[fieldName fn] rest IH];
    intros schema type Htype.
  - by exists type.
  - simpl. destruct (bool_decide (fieldName ∈ fieldsNames)); [|by apply IH].
    destruct (IH (assignInType typeName' fieldName fn schema)
                (snd (assignedType typeName' fieldName fn (typeName, type))))
      as (type' & Ht' & Hv).
    { by rewrite getType_assignInType, Htype. }
    exists type'. split; [done|].
    by rewrite Hv, (visited_assignedType typeName' fieldName fn (typeName, type)).
Qed.

Lemma visited_bindTypes resolverMap schema schema' typeName type :
  bindTypes resolverMap schema = Ok schema' ->
  getType schema typeName = Some type ->
  ∃ type', getType schema' typeName = Some type' ∧ visited type' = visited type.
Proof.
  revert schema type. induction resolverMap as [|[typeName' entries] rest IH];
    intros schema type Hbind Htype; simpl in Hbind.
  - injection Hbind as <-. by exists type.
  - destruct (getType schema typeName') as [t|]; [|done].
    destruct (getFields t) as [fields|]; [|done].
    destruct (visited_bindFields typeName' entries schema (map fst fields)
                typeName type Htype) as (type1 & Ht1 & Hv1).
    destruct (IH _ _ Hbind Ht1) as (type' & Ht' & Hv').
    exists type'. split; [done|]. by rewrite Hv', Hv1.
Qed.

Lemma fieldOf_wired engine resolverMap schema schema' typeName type fieldName
    field :
  addDirectiveResolveFunctionsToSchema engine schema resolverMap = Ok schema' ->
  getType schema typeName = Some type ->
  fieldOf schema typeName fieldName = Some field ->
  if visited type
  then ∃ field', installResolvers engine resolverMap schema field = Ok field'
                 ∧ fieldOf schema' typeName fieldName = Some field'
  else fieldOf schema' typeName fieldName = Some field.
Proof.
  unfold addDirectiveResolveFunctionsToSchema, forEachField.
  destruct (forEachType _ (typeMap schema)) as [types'|e] eqn:Htypes; [|done].
  intros [= <-] Htype Hfield.
  apply forEachType_Forall2 in Htypes.
  pose proof (Forall2_find_key
                (fun t t' =>
                   if visited t
                   then type_name t' = type_name t
                        ∧ type_kind t' = type_kind t
                        ∧ Forall2 (fun q q' =>
                                     fst q' = fst q
                                     ∧ installResolvers engine resolverMap schema
                                         (snd q) = Ok (snd q'))
                            (type_fields t) (type_fields t')
                   else t' = t)
                typeName (typeMap schema) types' Htypes) as Hfind.
  unfold fieldOf in *. unfold getType in *. simpl.
  destruct (List.find _ (typeMap schema)) as [[n t]|]; [|done].
  simpl in Htype. injection Htype as ->.
  destruct Hfind as (t' & -> & Ht'). simpl in *.
  destruct (visited type).
  - destruct Ht' as (_ & _ & Hfields).
    pose proof (Forall2_find_key
                  (fun f f' => installResolvers engine resolverMap schema f = Ok f')
                  fieldName (type_fields type) (type_fields t') Hfields) as Hfind.
    destruct (List.find _ (type_fields type)) as [[k f]|]; [|done].
    simpl in Hfield. injection Hfield as ->.
    destruct Hfind as (f' & -> & Hf'). by exists f'.
  - by subst t'.
Qed.

(** X8.  After wiring, the resolver the engine finds on a field of a
    visited type is that field wired, and a field of any other type is
    found as it was.  So what is proved of one wired field holds of every
    object-type field of the wired schema. *)
Theorem wired_schema_fields engine resolverMap schema schema' typeName type
    fieldName field :
  addDirectiveResolveFunctionsToSchema engine schema resolverMap = Ok schema' ->
  getType schema typeName = Some type ->
  fieldOf schema typeName fieldName = Some field ->
  (visited type = true ->
   ∃ field', installResolvers engine resolverMap schema field = Ok field'
             ∧ fieldOf schema' typeName fieldName = Some field')
  ∧ (visited type = false -> fieldOf schema' typeName fieldName = Some field).
Proof.
  intros Hwire Htype Hfield.
  pose proof (fieldOf_wired _ _ _ _ _ _ _ _ Hwire Htype Hfield) as H.
  split; intros Hv; by rewrite Hv in H.
Qed.

Lemma wired_schema_fields_witness :
  ∃ schema' field',
    addDirectiveResolveFunctionsToSchema Readme.engine Readme.schema
      Readme.directives = Ok schema'
    ∧ installResolvers Readme.engine Readme.directives Readme.schema
        Readme.secretField = Ok field'
    ∧ fieldOf schema' "Person" "secret" = Some field'.
Proof.
  eexists.
  destruct (proj1 (wired_schema_fields Readme.engine Readme.directives
                     Readme.schema _ "Person" _ "secret" Readme.secretField
                     eq_refl eq_refl eq_refl) eq_refl)
    as (field' & Hinst & Hfield).
  exists field'. split; [reflexivity|]. by split.
Defined.

(** X9.  [buildSchemaWithResolvers] with a directive table, end to end.
    If the parser leaves no resolver on any field, then a field of an
    object type of the final schema is found wired around the last
    function the resolver table registers for it, or around nothing (the
    default resolver) when the table has none: the chain is composed over
    a plain base resolver, never over another chain. *)
Theorem facade_wires_registered_resolvers engine resolverMap schemaString table
    schema final typeName type fieldName field :
  buildSchema engine schemaString = Ok schema ->
  allFields unwired schema ->
  buildSchemaWithResolvers engine resolverMap schemaString (Some table) = Ok final ->
  getType schema typeName = Some type ->
  visited type = true ->
  fieldOf schema typeName fieldName = Some field ->
  ∃ bound field',
    bindTypes resolverMap schema = Ok bound
    ∧ unwired (withLast (registered resolverMap typeName fieldName) field)
    ∧ installResolvers engine table bound
        (withLast (registered resolverMap typeName fieldName) field) = Ok field'
    ∧ fieldOf final typeName fieldName = Some field'.
Proof.
  unfold buildSchemaWithResolvers. intros -> Hun Hfinal Htype Hvis Hfield.
  destruct (bindTypes resolverMap schema) as [bound|e] eqn:Hbind; [|done].
  pose proof (fieldOf_bindTypes _ _ _ _ _ _ Hbind Hfield) as Hbound.
  destruct (visited_bindTypes _ _ _ _ _ Hbind Htype) as (type1 & Htype1 & Hvis1).
  pose proof (fieldOf_wired _ _ _ _ _ _ _ _ Hfinal Htype1 Hbound) as Hwired.
  rewrite Hvis1, Hvis in Hwired. destruct Hwired as (field' & Hinst & Hfound).
  exists bound, field'. split; [done|]. split; [|by split].
  pose proof (unwired_bindTypes _ _ _ Hbind Hun) as Hun'.
  unfold fieldOf in Hbound. rewrite Htype1 in Hbound.
  destruct (List.find _ (type_fields type1)) as [[k f]|] eqn:Hfind; [|done].
  simpl in Hbound. injection Hbound as ->.
  apply find_key_Some in Hfind as [_ Hin].
  unfold getType in Htype1.
  destruct (List.find _ (typeMap bound)) as [[n t]|] eqn:Hfind'; [|done].
  simpl in Htype1. injection Htype1 as ->.
  apply find_key_Some in Hfind' as [_ Hin'].
  by eapply (Hun' n type1 k).
Qed.

Lemma readme_schema_unwired : allFields unwired Readme.schema.
Proof.
  intros typeName type fieldName field Htype Hfield.
  unfold Readme.schema in Htype. simpl in Htype.
  repeat (apply elem_of_cons in Htype as [Htype|Htype];
          [injection Htype as -> ->; simpl in Hfield;
           repeat (apply elem_of_cons in Hfield as [Hfield|Hfield];
                   [injection Hfield as -> ->; by left|]);
           by apply elem_of_nil in Hfield|]).
  by apply elem_of_nil in Htype.
Defined.

Lemma facade_wires_registered_resolvers_witness :
  ∃ bound field',
    bindTypes Readme.handlers Readme.schema = Ok bound
    ∧ unwired (withLast (registered Readme.handlers "Person" "fullname")
                 (snd (Readme.plainField "fullname")))
    ∧ installResolvers Readme.engine Readme.directives bound
        (withLast (registered Readme.handlers "Person" "fullname")
           (snd (Readme.plainField "fullname"))) = Ok field'
    ∧ match Readme.wiredSchema with
      | Ok final => fieldOf final "Person" "fullname" = Some field'
      | Err _ => False
      end.
Proof.
  apply (facade_wires_registered_resolvers Readme.engine Readme.handlers ""
           Readme.directives Readme.schema _ "Person" _ "fullname"
           (snd (Readme.plainField "fullname"))
           eq_refl readme_schema_unwired eq_refl eq_refl eq_refl eq_refl).
Defined.

(** ** Which failure is reported *)

Lemma discover_first_failure engine resolverMap schema location variables
    passing d rest e :
  (∀ g, g ∈ passing ->
        ∃ di, getDirectiveInfo engine g resolverMap schema location variables
              = Ok di) ->
  getDirectiveInfo engine d resolverMap schema location variables = Err e ->
  discover engine resolverMap schema location variables (passing ++ d :: rest)
  = Err e.
Proof.
  intros Hpass Hd. induction passing as [|g passing IH]; simpl.
  - by rewrite Hd.
  - destruct (Hpass g) as [di ->]; [left|].
    rewrite IH; [done|]. intros g' Hin. apply Hpass. by right.
Qed.

(** X10.  When several directives of a field are at fault, the one
    written first decides: if the custom directives before [d] all pass
    discovery and [d] fails with [e], then composing the declaration-site
    chain fails with [e], and so does wiring the field; at the usage site
    the call of the wired field ends with [e] before anything is called,
    whatever is wrong with the directives written after [d]. *)
Theorem first_failing_directive_decides engine resolverMap schema field :
  (∀ passing d rest e,
     filterCustomDirectives (astNode_directives field) = passing ++ d :: rest ->
     (∀ g, g ∈ passing ->
           ∃ di, getDirectiveInfo engine g resolverMap schema FIELD_DEFINITION None
                 = Ok di) ->
     getDirectiveInfo engine d resolverMap schema FIELD_DEFINITION None = Err e ->
     createFieldExecutionResolver engine field resolverMap schema = Err e
     ∧ installResolvers engine resolverMap schema field = Err e)
  ∧ (∀ field' source args context info node0 others passing d rest e w,
       installResolvers engine resolverMap schema field = Ok field' ->
       fieldNodes info = node0 :: others ->
       filterCustomDirectives (node_directives node0) = passing ++ d :: rest ->
       (∀ g, g ∈ passing ->
             ∃ di, getDirectiveInfo engine g resolverMap schema FIELD
                     (Some (variableValues info)) = Ok di) ->
       getDirectiveInfo engine d resolverMap schema FIELD
         (Some (variableValues info)) = Err e ->
       runs (getFieldResolver engine field' source args context info)
         w (Err e) (heap w) []).
Proof.
  split.
  - intros passing d rest e Hsplit Hpass Hd.
    pose proof (createFieldExecutionResolver_spec engine resolverMap schema field)
      as Hspec.
    rewrite Hsplit, (discover_first_failure _ _ _ _ _ _ _ _ _ Hpass Hd) in Hspec.
    split; [done|]. unfold installResolvers. by rewrite Hspec.
  - intros field' source args context info node0 others passing d rest e w
      Hinst Hnodes Hsplit Hpass Hd.
    destruct (installResolvers_spec _ _ _ _ _ Hinst) as (r & Hr & -> & Hget).
    pose proof (createFieldResolver_spec engine resolverMap schema
                  (setResolve r field) source args context info node0 others
                  Hnodes) as Hspec.
    rewrite Hsplit, (discover_first_failure _ _ _ _ _ _ _ _ _ Hpass Hd) in Hspec.
    rewrite Hspec. apply throw_runs.
Qed.

Lemma first_failing_directive_decides_witness :
  createFieldExecutionResolver Readme.engine Readme.secretField
    (<["whatever" := Readme.whatever]> ∅) Readme.schema
  = Err (MissingDirectiveHandler "role")
  ∧ installResolvers Readme.engine (<["whatever" := Readme.whatever]> ∅)
      Readme.schema Readme.secretField
    = Err (MissingDirectiveHandler "role").
Proof.
  apply (proj1 (first_failing_directive_decides Readme.engine
                  (<["whatever" := Readme.whatever]> ∅) Readme.schema
                  Readme.secretField)
           [ {| dir_name := "whatever"; dir_arguments := [] |} ]
           {| dir_name := "role";
              dir_arguments := [("role", Literal (VStr "ADMIN"))] |} []).
  - vm_compute. reflexivity.
  - intros g Hg. apply list_elem_of_singleton in Hg as ->.
    eexists. vm_compute. reflexivity.
  - reflexivity.
Defined.

(** ** The chains as explicit lists *)

Lemma getDirectiveInfo_Ok engine d resolverMap schema location variables di :
  getDirectiveInfo engine d resolverMap schema location variables = Ok di ->
  discoveredFor engine resolverMap schema location variables d (dir_name d, di).
Proof.
  unfold getDirectiveInfo, discoveredFor. simpl.
  destruct (getDirective schema (dir_name d)) as [D|]; [|done].
  case_bool_decide as Hloc; simpl; [|done].
  destruct (resolverMap !! dir_name d) as [resolver|]; [|done].
  destruct (getDirectiveValues engine D d variables) as [args|e] eqn:Hargs; [|done].
  intros [= <-]. simpl. split; [done|]. split; [done|]. by exists D.
Qed.

Lemma discover_Forall2 engine resolverMap schema location variables ds dis :
  discover engine resolverMap schema location variables ds = Ok dis ->
  Forall2 (discoveredFor engine resolverMap schema location variables) ds dis.
Proof.
  revert dis. induction ds as [|d ds IH]; intros dis; simpl.
  - intros [= <-]. constructor.
  - destruct (getDirectiveInfo engine d _ _ _ _) as [di|e] eqn:Hd; [|done].
    destruct (discover _ _ _ _ _ ds) as [rest|e]; [|done].
    intros [= <-]. constructor; [by apply getDirectiveInfo_Ok|by apply IH].
Qed.

(** X11.  The closure [createFieldExecutionResolver] returns is the
    explicit chain over the list of discovered directives: for each
    custom directive, in source order, the handler the table holds under
    its name and the arguments the engine resolves for it without
    variables; called with [(source, args, context, info)], the handlers
    run nested from the last to the first around the field's own
    resolver, each with the same source, context and info, its own
    directive arguments, and the field's [args] as last parameter. *)
Theorem declaration_chain_is_explicit engine resolverMap schema field r :
  createFieldExecutionResolver engine field resolverMap schema = Ok r ->
  ∃ discovered,
    Forall2 (discoveredFor engine resolverMap schema FIELD_DEFINITION None)
      (filterCustomDirectives (astNode_directives field)) discovered
    ∧ ∀ source args context info,
        r source args context info
        = nest FIELD_DEFINITION (reverse discovered)
            (getFieldResolver engine field source args context info)
            source context info args.
Proof.
  intros Hr.
  pose proof (createFieldExecutionResolver_spec engine resolverMap schema field)
    as Hspec.
  destruct (discover _ _ _ _ _ _) as [dis|e] eqn:Hdis; [|congruence].
  destruct Hspec as (r' & Hr' & Hnest). assert (r' = r) as -> by congruence.
  exists dis. split; [by eapply discover_Forall2|done].
Qed.

Lemma declaration_chain_is_explicit_witness :
  ∃ discovered,
    Forall2 (discoveredFor Readme.engine Readme.passTable Readme.schema
               FIELD_DEFINITION None)
      (filterCustomDirectives (astNode_directives Readme.secretField)) discovered
    ∧ ∀ source args context info,
        Readme.passResolver source args context info
        = nest FIELD_DEFINITION (reverse discovered)
            (getFieldResolver Readme.engine Readme.secretField
               source args context info)
            source context info args.
Proof.
  apply (declaration_chain_is_explicit Readme.engine Readme.passTable
           Readme.schema Readme.secretField Readme.passResolver eq_refl).
Defined.

(** X12.  The resolver of a wired field, called for a field node: the
    usage-site directives of the first node are discovered anew at every
    call, with the variables of that call, and their handlers run nested
    from the last to the first around the resolver composed at the
    declaration site, with the source, args, context and info of the call.
    When the node has no custom directive the declaration-site resolver
    is called as it is. *)
Theorem usage_chain_is_explicit engine resolverMap schema field field' r
    source args context info node0 rest :
  installResolvers engine resolverMap schema field = Ok field' ->
  createFieldExecutionResolver engine field resolverMap schema = Ok r ->
  fieldNodes info = node0 :: rest ->
  (filterCustomDirectives (node_directives node0) = [] ->
   getFieldResolver engine field' source args context info
   = r source args context info)
  ∧ (∀ used,
       discover engine resolverMap schema FIELD (Some (variableValues info))
         (filterCustomDirectives (node_directives node0)) = Ok used ->
       Forall2 (discoveredFor engine resolverMap schema FIELD
                  (Some (variableValues info)))
         (filterCustomDirectives (node_directives node0)) used
       ∧ getFieldResolver engine field' source args context info
         = nest FIELD (reverse used) (r source args context info)
             source context info args).
Proof.
  intros Hinst Hr Hnodes.
  destruct (installResolvers_spec _ _ _ _ _ Hinst) as (r' & Hr' & -> & Hget).
  assert (r' = r) as -> by congruence.
  pose proof (createFieldResolver_spec engine resolverMap schema
                (setResolve r field) source args context info node0 rest Hnodes)
    as Hspec.
  split.
  - intros Hnone. rewrite Hnone in Hspec. simpl in Hspec. by rewrite Hspec, Hget.
  - intros used Hused. rewrite Hused in Hspec.
    split; [by eapply discover_Forall2|]. by rewrite Hspec, Hget.
Qed.

Lemma usage_chain_is_explicit_witness :
  getFieldResolver Readme.engine Readme.passWiredSecretField
    (VRef Readme.personLoc) ∅ (VRef Readme.contextLoc) Readme.includeInfo
  = Readme.passResolver
      (VRef Readme.personLoc) ∅ (VRef Readme.contextLoc) Readme.includeInfo.
Proof.
  apply (proj1 (usage_chain_is_explicit Readme.engine Readme.passTable
                  Readme.schema Readme.secretField Readme.passWiredSecretField
                  Readme.passResolver (VRef Readme.personLoc) ∅
                  (VRef Readme.contextLoc) Readme.includeInfo
                  {| node_name := "secret";
                     node_directives :=
                       [ {| dir_name := "include";
                            dir_arguments := [("if", Literal (VBool true))] |} ] |}
                  [] eq_refl eq_refl eq_refl)).
  reflexivity.
Defined.

(** ** Fields without directives, and calls without field nodes *)

(** X13.  A field without custom directives is wired whatever the schema
    and the table hold, and its wired resolver does what its resolver did
    before, for every call whose first field node has no custom directive
    either.  It is not the same function, though: called with an info
    that has no field node, the wired resolver throws a [TypeError] before
    it calls anything. *)
Theorem wiring_without_directives engine resolverMap schema field :
  filterCustomDirectives (astNode_directives field) = [] ->
  ∃ field',
    installResolvers engine resolverMap schema field = Ok field'
    ∧ (∀ source args context info node0 rest,
         fieldNodes info = node0 :: rest ->
         filterCustomDirectives (node_directives node0) = [] ->
         getFieldResolver engine field' source args context info
         = getFieldResolver engine field source args context info)
    ∧ (∀ source args context info w,
         fieldNodes info = [] ->
         ∃ message,
           runs (getFieldResolver engine field' source args context info)
             w (Err (TypeError message)) (heap w) []).
Proof.
  intros Hnone. unfold installResolvers, createFieldExecutionResolver.
  rewrite Hnone. simpl. eexists. split; [done|]. split.
  - intros source args context info node0 rest Hnodes Hnone'.
    unfold getFieldResolver at 1. simpl. unfold createFieldResolver.
    by rewrite Hnodes, Hnone'.
  - intros source args context info w Hnodes.
    unfold getFieldResolver at 1. simpl. unfold createFieldResolver.
    rewrite Hnodes. eexists. apply throw_runs.
Qed.

Lemma wiring_without_directives_witness :
  ∃ field',
    installResolvers Readme.engine ∅ {| typeMap := []; directives := [] |}
      (snd (Readme.plainField "name")) = Ok field'
    ∧ (∀ source args context info node0 rest,
         fieldNodes info = node0 :: rest ->
         filterCustomDirectives (node_directives node0) = [] ->
         getFieldResolver Readme.engine field' source args context info
         = getFieldResolver Readme.engine (snd (Readme.plainField "name"))
             source args context info)
    ∧ (∀ source args context info w,
         fieldNodes info = [] ->
         ∃ message,
           runs (getFieldResolver Readme.engine field' source args context info)
             w (Err (TypeError message)) (heap w) []).
Proof.
  apply (wiring_without_directives Readme.engine ∅
           {| typeMap := []; directives := [] |} (snd (Readme.plainField "name"))).
  reflexivity.
Defined.

(** ** The heap is the user's *)

Lemma runBody_readOnly b k :
  readOnly b ->
  (∀ w, heap (snd (k w)) = heap w) ->
  ∀ w, heap (snd (runBody b k w)) = heap w.
Proof.
  intros Hb Hk. induction Hb as [v|e|k' _ IH|upd next Hupd _ IH]; intros w; simpl.
  - done.
  - done.
  - specialize (Hk w). destruct (k w) as [o w']. simpl in Hk.
    by rewrite IH.
  - rewrite IH. simpl. apply Hupd.
Qed.

Lemma nest_readOnly location outerFirst base source context info args :
  (∀ name di, (name, di) ∈ outerFirst ->
     readOnly (info_resolver di source (info_args di) context info args)) ->
  (∀ w, heap (snd (base w)) = heap w) ->
  ∀ w, heap (snd (nest location outerFirst base source context info args w))
       = heap w.
Proof.
  induction outerFirst as [|[name di] inner IH]; intros Hshape Hbase w; simpl.
  - apply Hbase.
  - unfold callDirective.
    pose proof (runBody_readOnly
                  (info_resolver di source (info_args di) context info args)
                  (nest location inner base source context info args)) as Hrun.
    specialize (Hrun (Hshape name di ltac:(left))).
    specialize (Hrun (IH (fun n d Hin => Hshape n d ltac:(by right)) Hbase)).
    specialize (Hrun (record (Enter (DirectiveHandler location name) context) w)).
    destruct (runBody _ _ _) as [o w2]. simpl in *.
    rewrite <- Hrun. by destruct o.
Qed.

(** X14.  The chain itself never writes to the heap: if no handler of
    the table and not the field's own resolver changes the heap, a call
    of the wired field leaves the heap, and with it the object behind
    the context reference, exactly as it found it, however the call
    ends. *)
Theorem chain_never_writes engine resolverMap schema field field' :
  installResolvers engine resolverMap schema field = Ok field' ->
  allHandlers readOnly resolverMap ->
  (∀ source args context info w,
     heap (snd (getFieldResolver engine field source args context info w))
     = heap w) ->
  ∀ source args context info w,
    heap (snd (getFieldResolver engine field' source args context info w))
    = heap w.
Proof.
  intros Hinst Hall Hbase source args context info w.
  destruct (installResolvers_spec _ _ _ _ _ Hinst) as (r & Hr & -> & Hget).
  assert (Hdecl : ∀ w', heap (snd (r source args context info w')) = heap w').
  { pose proof (createFieldExecutionResolver_spec engine resolverMap schema field)
      as Hspec.
    destruct (discover _ _ _ FIELD_DEFINITION _ _) as [dis|e] eqn:Hdis;
      [|congruence].
    destruct Hspec as (r' & Hr' & Hnest). assert (r' = r) as -> by congruence.
    intros w'. rewrite Hnest. apply nest_readOnly; [|by apply Hbase].
    intros name di Hin. by eapply discover_shape. }
  destruct (fieldNodes info) as [|node0 rest] eqn:Hnodes.
  - unfold createFieldResolver. by rewrite Hnodes.
  - pose proof (createFieldResolver_spec engine resolverMap schema
                  (setResolve r field) source args context info node0 rest Hnodes)
      as Hspec.
    destruct (discover _ _ _ FIELD _ _) as [dis|e] eqn:Hdis.
    + rewrite Hspec, Hget. apply nest_readOnly; [|done].
      intros name di Hin. by eapply discover_shape.
    + by rewrite Hspec.
Qed.

Lemma readme_directives_readOnly : allHandlers readOnly Readme.directives.
Proof.
  intros name resolver source dargs context info args Hlook.
  unfold Readme.directives in Hlook.
  apply lookup_insert_Some in Hlook as [[_ <-]|[_ Hlook]].
  - unfold Readme.role. constructor; [done|]. intros h.
    destruct (Readme.getProperty context "role" h); [|constructor].
    case_bool_decide; [constructor|].
    constructor. intros [v|e]; constructor.
  - apply lookup_insert_Some in Hlook as [[_ <-]|[_ Hlook]].
    + constructor. intros [v|e]; constructor.
    + apply lookup_insert_Some in Hlook as [[_ <-]|[_ Hlook]].
      * constructor. intros [v|e]; [|constructor].
        destruct (Readme.toString v); constructor.
      * by rewrite lookup_empty in Hlook.
Defined.

Lemma chain_never_writes_witness :
  heap (snd (getFieldResolver Readme.engine Readme.wiredSecretField
               (VRef Readme.personLoc) ∅ (VRef Readme.contextLoc)
               Readme.secretInfo Readme.userWorld))
  = heap Readme.userWorld.
Proof.
  apply (chain_never_writes Readme.engine Readme.directives Readme.schema
           Readme.secretField Readme.wiredSecretField eq_refl
           readme_directives_readOnly).
  intros source args context info w.
  unfold getFieldResolver, callResolver. simpl.
  by destruct (Readme.getProperty source (fieldName info) (heap w)).
Defined.

(** ** A handler that throws *)

Lemma callDirective_throws location name resolver k source dargs context info
    args w e h :
  settles (resolver source dargs context info args) (heap w) = Some (Err e, h) ->
  runs (callDirective location name resolver k source dargs context info args)
    w (Err e) h
    [Enter (DirectiveHandler location name) context;
     Fail (DirectiveHandler location name) e].
Proof.
  intros Hs.
  pose proof (callDirective_runs location name resolver k source dargs context
                info args w (Err e) h []) as Hr.
  simpl in Hr. apply Hr. by apply runBody_settles.
Qed.

(** X15.  Split the custom directives of a field as
    [inner ++ d :: outer].  Whenever the handler of [d] throws [e] without
    a call of its continuation (an authorization check that fails, say),
    the resolver composed up to [d] ends with exactly [e], the heap is the
    one the handler left, and the only call made is that of [d]'s handler:
    no handler of [inner] runs and the base resolver is never called. *)
Theorem throwing_handler_stops_the_chain engine resolverMap schema field inner d
    outer r :
  createFieldExecutionResolver engine field resolverMap schema = Ok r ->
  filterCustomDirectives (astNode_directives field) = inner ++ d :: outer ->
  ∃ rd di,
    getDirectiveInfo engine d resolverMap schema FIELD_DEFINITION None = Ok di ∧
    reduce (executionStep engine resolverMap schema) (inner ++ [d])
      (createAsyncResolver engine field) = Ok rd ∧
    reduce (executionStep engine resolverMap schema) outer rd = Ok r ∧
    ∀ source args context info w e h,
      settles (info_resolver di source (info_args di) context info args)
        (heap w) = Some (Err e, h) ->
      runs (rd source args context info) w (Err e) h
        [Enter (DirectiveHandler FIELD_DEFINITION (dir_name d)) context;
         Fail (DirectiveHandler FIELD_DEFINITION (dir_name d)) e].
Proof.
  intros Hr Hsplit.
  unfold createFieldExecutionResolver in Hr. rewrite Hsplit in Hr.
  rewrite bool_decide_eq_false_2 in Hr by (rewrite length_app; simpl; lia).
  apply reduce_split in Hr as (ri & rd & Hi & Hd & Hid & Ho).
  unfold executionStep in Hd.
  destruct (getDirectiveInfo engine d resolverMap schema FIELD_DEFINITION None)
    as [di|e] eqn:Hinfo; [|done].
  injection Hd as <-.
  eexists. exists di. split; [done|]. split; [exact Hid|]. split; [exact Ho|].
  intros source args context info w e h Hs. by apply callDirective_throws.
Qed.

Lemma throwing_handler_stops_the_chain_witness :
  ∃ rd di,
    getDirectiveInfo Readme.engine
      {| dir_name := "role"; dir_arguments := [("role", Literal (VStr "ADMIN"))] |}
      Readme.directives Readme.schema FIELD_DEFINITION None = Ok di ∧
    reduce (executionStep Readme.engine Readme.directives Readme.schema)
      ([ {| dir_name := "whatever"; dir_arguments := [] |} ]
       ++ [ {| dir_name := "role";
               dir_arguments := [("role", Literal (VStr "ADMIN"))] |} ])
      (createAsyncResolver Readme.engine Readme.secretField) = Ok rd ∧
    reduce (executionStep Readme.engine Readme.directives Readme.schema) [] rd
    = Ok Readme.declaredSecretResolver ∧
    ∀ source args context info w e h,
      settles (info_resolver di source (info_args di) context info args)
        (heap w) = Some (Err e, h) ->
      runs (rd source args context info) w (Err e) h
        [Enter (DirectiveHandler FIELD_DEFINITION "role") context;
         Fail (DirectiveHandler FIELD_DEFINITION "role") e].
Proof.
  apply (throwing_handler_stops_the_chain Readme.engine Readme.directives
           Readme.schema Readme.secretField
           [ {| dir_name := "whatever"; dir_arguments := [] |} ]
           {| dir_name := "role";
              dir_arguments := [("role", Literal (VStr "ADMIN"))] |}
           [] Readme.declaredSecretResolver).
  - reflexivity.
  - vm_compute. reflexivity.
Defined.

(** ** The [role] handler of the README *)

(** X16.  [role] guards what lies inside it.  When the role found in the
    context differs from the directive's [role] argument it throws
    [Unauthorized] with code [E_ROLE], leaves the heap alone and never
    calls its continuation; when they are the same it calls the
    continuation once and hands on its outcome, value or error, as it
    is. *)
Theorem role_guards location name k obj args context info functionArgs w
    contextRole :
  Readme.getProperty context "role" (heap w) = Ok contextRole ->
  (default VUndefined (args !! "role") ≠ contextRole ->
   runs (callDirective location name Readme.role k obj args context info
           functionArgs)
     w (Err (GraphQLError "Unauthorized" "E_ROLE")) (heap w)
     [Enter (DirectiveHandler location name) context;
      Fail (DirectiveHandler location name)
        (GraphQLError "Unauthorized" "E_ROLE")])
  ∧ (default VUndefined (args !! "role") = contextRole ->
     ∀ o h evs,
       runs k (record (Enter (DirectiveHandler location name) context) w) o h evs ->
       runs (callDirective location name Readme.role k obj args context info
               functionArgs)
         w o h
         (Enter (DirectiveHandler location name) context :: evs
            ++ failTail (DirectiveHandler location name) o)).
Proof.
  intros Hrole. split.
  - intros Hne. apply callDirective_throws. simpl. rewrite Hrole.
    by rewrite bool_decide_eq_true_2.
  - intros Heq o h evs Hk. apply callDirective_runs.
    unfold runs in *. simpl in *. rewrite Hrole.
    rewrite bool_decide_eq_false_2 by (intros Hne; by apply Hne).
    simpl.
    replace {| heap := heap w;
               calls := calls w ++ [Enter (DirectiveHandler location name) context] |}
      with (record (Enter (DirectiveHandler location name) context) w) by done.
    rewrite Hk. by destruct o.
Qed.

Lemma role_guards_witness :
  runs (callDirective FIELD_DEFINITION "role" Readme.role (ret VNull)
          (VRef Readme.personLoc) (<["role" := VStr "ADMIN"]> ∅)
          (VRef Readme.contextLoc) Readme.secretInfo ∅)
    Readme.userWorld (Err (GraphQLError "Unauthorized" "E_ROLE"))
    (heap Readme.userWorld)
    [Enter (DirectiveHandler FIELD_DEFINITION "role") (VRef Readme.contextLoc);
     Fail (DirectiveHandler FIELD_DEFINITION "role")
       (GraphQLError "Unauthorized" "E_ROLE")].
Proof.
  apply (proj1 (role_guards FIELD_DEFINITION "role" (ret VNull)
                  (VRef Readme.personLoc) (<["role" := VStr "ADMIN"]> ∅)
                  (VRef Readme.contextLoc) Readme.secretInfo ∅ Readme.userWorld
                  (VStr "USER") eq_refl)).
  vm_compute. discriminate.
Defined.
